(** * Discovery.py: the resource discovery engine, embedded and verified

    A shallow embedding of [src/Discovery.py]: the operation classifier
    ([get_list_operations]), the service scanner
    ([discover_resources_for_service]), the tag-index scanner
    ([get_tagged_resources]) and the region loop of [main].

    Conventions of the embedding.
    - Python [str] is [string]; identifiers and field names are ASCII, so
      [str.lower] is the ASCII lower-casing [lower].
    - A Python [dict] used as a mapping is a [gmap]: equality of [gmap]s
      is equality of mappings, entry order left out.
    - A Python [dict] read back in insertion order ([by_service]) is the
      list of its items.
    - [print] and the invocations of API operations are events of a
      trace; a function of the source returns its trace and either a
      value or the exception that leaves it ([Result]).  A function body
      runs over its local variables ([M]), which keep what was assigned
      before an exception was raised.  [try]/[except] is [try_except].
    - Exceptions are the subclasses of [Exception], the ones an
      [except Exception] clause catches; [print] does not raise.
    - The thread pool of [main] is the order in which its futures
      finish; the lines printed by one worker are kept together. *)

From stdpp Require Import gmap strings list fin_maps sorting.
From Stdlib Require Import Ascii.


(** ** Python string operations *)

Module PyStr.

(** One character of [str.lower] on ASCII: 'A'..'Z' move to 'a'..'z'. *)
Definition lower_ascii (c : ascii) : ascii :=
  let n := nat_of_ascii c in
  if (65 <=? n)%nat && (n <=? 90)%nat then ascii_of_nat (n + 32) else c.

(** [s.lower()] *)
Fixpoint lower (s : string) : string :=
  match s with
  | EmptyString => EmptyString
  | String c t => String (lower_ascii c) (lower t)
  end.

(** [s.startswith(p)] *)
Fixpoint startswith (s p : string) {struct p} : bool :=
  match p with
  | EmptyString => true
  | String a p' =>
      match s with
      | EmptyString => false
      | String b s' => if Ascii.eqb a b then startswith s' p' else false
      end
  end.

(** [p in s] *)
Fixpoint contains (s p : string) : bool :=
  startswith s p ||
  match s with
  | EmptyString => false
  | String _ s' => contains s' p
  end.

(** [s.endswith(p)], one suffix *)
Fixpoint endswith (s p : string) : bool :=
  String.eqb s p ||
  match s with
  | EmptyString => false
  | String _ s' => endswith s' p
  end.

(** [s.endswith((p1, ..., pn))], a tuple of suffixes *)
Definition endswith_any (s : string) (ps : list string) : bool :=
  existsb (endswith s) ps.

(** [s.split(sep)] for a one-character separator; [cur] is the field
    being read. *)
Fixpoint split_go (sep : ascii) (cur : string) (s : string) : list string :=
  match s with
  | EmptyString => [String.rev cur]
  | String c t =>
      if Ascii.eqb c sep then String.rev cur :: split_go sep EmptyString t
      else split_go sep (String c cur) t
  end.

Definition split (sep : ascii) (s : string) : list string :=
  split_go sep EmptyString s.

End PyStr.

Import PyStr.

(** ** The operation classifier *)

(** The condition of lines 57-59 on the lower-cased name. *)
Definition listing_shaped (operation_name : string) : bool :=
  let op_name := lower operation_name in
  startswith op_name "list" ||
  startswith op_name "describe" ||
  (startswith op_name "get" && (contains op_name "list" || contains op_name "all")).

(** The list of lines 77-78. *)
Definition skipped_operations : list string :=
  [ "list_command_invocations"; "list_documents";
    "list_resource_compliance_summaries"; "list_tags_for_resource";
    "list_buckets"; "list_multipart_uploads" ].

(** [operation in [...]], Python's [in] on a list of [str]. *)
Definition is_skipped (operation : string) : bool :=
  bool_decide (operation ∈ skipped_operations).


(** ** Values, exceptions and the trace *)

(** A JSON-like value of a response: scalars, sequences ([list]) and
    nested mappings. *)
#[warnings="-register-all"]
Inductive value : Type :=
  | VNone
  | VBool (b : bool)
  | VInt (n : Z)
  | VStr (s : string)
  | VList (l : list value)
  | VDict (d : list (string * value)).

(** The exceptions the source tells apart (lines 96-101): three classes
    of botocore, and any other subclass of [Exception]. *)
Inductive exn : Type :=
  | ClientError (msg : string)
  | ParamValidationError (msg : string)
  | OperationNotPageableError (msg : string)
  | OtherException (msg : string).

(** [str(e)] *)
Definition str (e : exn) : string :=
  match e with
  | ClientError msg | ParamValidationError msg
  | OperationNotPageableError msg | OtherException msg => msg
  end.

(** The lines the scanners print, by the line of the source. *)
Inductive message : Type :=
  | MsgScanning (service_name region : string)                       (* 67 *)
  | MsgFound (service_name operation region : string) (n : nat)      (* 94 *)
  | MsgOperationError (service_name operation region err : string)   (* 103 *)
  | MsgInitError (service_name region err : string)                  (* 106 *)
  | MsgFetchingTagged (region : string)                              (* 112 *)
  | MsgTaggedFound (region : string) (n services : nat)              (* 130 *)
  | MsgTaggedService (service region : string) (n : nat)             (* 132 *)
  | MsgTaggedError (region err : string)                             (* 136 *)
  | MsgRegion (region : string)                                      (* 197 *)
  | MsgDiscovering (region : string).                                (* 203 *)

(** An error diagnostic is one of the three lines printed by an
    [except] clause. *)
Definition is_error_message (m : message) : bool :=
  match m with
  | MsgOperationError _ _ _ _ | MsgInitError _ _ _ | MsgTaggedError _ _ => true
  | _ => false
  end.

Inductive event : Type :=
  | Print (m : message)
  | Invoke (service_name region operation : string).  (* line 82 *)

Definition is_error_event (ev : event) : bool :=
  match ev with
  | Print m => is_error_message m
  | Invoke _ _ _ => false
  end.

(** ** Function bodies: local variables, trace, exceptions *)

(** What a call of a Python function gives back: the events it produced
    and its value, or the exception that left it. *)
Definition Result (A : Type) : Type := list event * (exn + A).

(** A piece of a function body over local variables [St]: locals keep
    the assignments made before an exception was raised. *)
Definition M (St A : Type) : Type := St → list event * St * (exn + A).

Section Body.
Context {St : Type}.

Definition ret {A} (a : A) : M St A := λ s, ([], s, inr a).

Definition raise {A} (e : exn) : M St A := λ s, ([], s, inl e).

Definition bind {A B} (m : M St A) (f : A → M St B) : M St B :=
  λ s,
    match m s with
    | (t, s', inl e) => (t, s', inl e)
    | (t, s', inr a) =>
        let '(t', s'', r) := f a s' in (t ++ t', s'', r)
    end.

Definition get : M St St := λ s, ([], s, inr s).

Definition modify (f : St → St) : M St unit := λ s, ([], f s, inr tt).

Definition emit (ev : event) : M St unit := λ s, ([ev], s, inr tt).

Definition print (m : message) : M St unit := emit (Print m).

(** An expression that may raise. *)
Definition lift {A} (r : exn + A) : M St A := λ s, ([], s, r).

(** A call of another function: its events, then its value or its
    exception. *)
Definition call {A} (r : Result A) : M St A := λ s, (r.1, s, r.2).

(** [try: body except Exception as e: handler e]; the clauses of the
    source are the cases of [handler]. *)
Definition try_except {A} (body : M St A) (handler : exn → M St A) : M St A :=
  λ s,
    match body s with
    | (t, s', inl e) => let '(t', s'', r) := handler e s' in (t ++ t', s'', r)
    | (t, s', inr a) => (t, s', inr a)
    end.

(** [for x in xs: body x] *)
Fixpoint for_each {A} (xs : list A) (body : A → M St unit) : M St unit :=
  match xs with
  | [] => ret tt
  | x :: xs' => bind (body x) (λ _, for_each xs' body)
  end.

End Body.

(** A function: its body run from the initial locals. *)
Definition exec {St A} (init : St) (body : M St A) : Result A :=
  let '(t, _, r) := body init in (t, r).

(** The bodies are written with stdpp's monad notations:
    [x ← m; k] and [m;; k]. *)
Global Instance M_bind {St} : MBind (M St) := λ A B f m, bind m f.
Global Instance M_ret {St} : MRet (M St) := λ A a, ret a.

(** ** boto3 *)

(** A client: what [client._service_model.operation_names] evaluates to,
    and what [getattr(client, operation)()] does, read as a dict with
    [str] keys (for anything else line 86 or 89 raises). *)
Record Client : Type := {
  operation_names : exn + list string;
  invoke : string → exn + gmap string value;
}.

(** One record of [ResourceTagMappingList]. *)
Record TagMapping : Type := {
  ResourceARN : string;
  Tags : list (string * string);
}.

(** [paginator.paginate(ResourcesPerPage=100)]: the pages it yields, and
    whether it ends or raises. *)
Inductive pages : Type :=
  | Exhausted
  | Page (ResourceTagMappingList : list TagMapping) (rest : pages)
  | PageError (e : exn).

Record Boto3 : Type := {
  client : string → string → exn + Client;
  tagging_paginate : string → exn + pages;
}.

(** ** get_list_operations (lines 49-63) *)

Definition get_list_operations (c : Client) : Result (list string) :=
  exec ([] : list string)
    (try_except
       (names ← lift (operation_names c);
        for_each names (λ operation_name,
          if listing_shaped operation_name
          then modify (λ list_operations, list_operations ++ [operation_name])
          else ret tt))
       (λ _, ret tt);;
     get).

(** ** discover_resources_for_service (lines 65-108) *)

(** [if d:] on a dict: it has at least one entry. *)
Definition truthy {V} (d : gmap string V) : bool := negb (size d =? 0)%nat.

(** [isinstance(value, list) and len(value) > 0] *)
Definition nonempty_list (v : value) : bool :=
  match v with
  | VList l => (0 <? List.length l)%nat
  | _ => false
  end.

(** The tuple of line 89. *)
Definition resource_suffixes : list string :=
  [ "list"; "ids"; "arns"; "names"; "summaries" ].

(** Lines 85-90: [filtered_response], built entry by entry from
    [response.items()]. *)
Definition filtered_response (response : gmap string value) : gmap string value :=
  map_fold
    (λ key value filtered,
       if nonempty_list value then <[key := value]> filtered
       else if endswith_any (lower key) resource_suffixes
            then <[key := value]> filtered
            else filtered)
    ∅ response.

(** The count printed by line 94. *)
Definition found_count (filtered : gmap string value) : nat :=
  map_fold
    (λ _ v n, n + match v with VList l => List.length l | _ => 1 end)%nat
    0%nat filtered.

(** [ServiceScanResult]: operation identifier to [ResourceBag]. *)
Abbreviation scan_result := (gmap string (gmap string value)).

(** The handler of lines 96-103, with [resources] as the local. *)
Definition operation_handler (service_name region operation : string)
    (e : exn) : M scan_result unit :=
  match e with
  | ClientError _ | ParamValidationError _ | OperationNotPageableError _ =>
      ret tt
  | OtherException _ =>
      print (MsgOperationError service_name operation region (str e))
  end.

(** Lines 75-103: one turn of the loop over [list_operations]. *)
Definition scan_operation (c : Client) (service_name region operation : string)
    : M scan_result unit :=
  try_except
    (if is_skipped operation then ret tt
     else
       emit (Invoke service_name region operation);;
       response ← lift (invoke c operation);
       let filtered := filtered_response response in
       if truthy filtered then
         modify (λ resources, <[operation := filtered]> resources);;
         print (MsgFound service_name operation region (found_count filtered))
       else ret tt)
    (operation_handler service_name region operation).

Definition discover_resources_for_service (boto3 : Boto3)
    (service_name region : string) : Result (string * string * scan_result) :=
  exec (∅ : scan_result)
    (print (MsgScanning service_name region);;
     try_except
       (c ← lift (client boto3 service_name region);
        list_operations ← call (get_list_operations c);
        for_each list_operations (scan_operation c service_name region))
       (λ e, print (MsgInitError service_name region (str e)));;
     resources ← get;
     ret (service_name, region, resources)).

(** ** get_tagged_resources (lines 110-137) *)

(** [by_service]: a dict read back in insertion order by line 131, kept
    as the list of its items. *)
Abbreviation by_service_t := (list (string * list string)).

(** [service not in by_service] *)
Definition has_key (by_service : by_service_t) (service : string) : bool :=
  bool_decide (service ∈ by_service.*1).

(** [by_service[service].append(arn)] *)
Definition append_arn (service arn : string) (by_service : by_service_t)
    : by_service_t :=
  (λ kv, if bool_decide (kv.1 = service) then (kv.1, kv.2 ++ [arn]) else kv)
    <$> by_service.

(** The locals of the function: [resources] and [by_service]. *)
Record tag_locals : Type := {
  resources : list TagMapping;
  by_service : by_service_t;
}.

(** Lines 115 and 122: both start empty. *)
Definition initial_tag_locals : tag_locals :=
  {| resources := []; by_service := [] |}.

(** Lines 118-119. *)
Fixpoint for_pages (pg : pages) : M tag_locals unit :=
  match pg with
  | Exhausted => ret tt
  | Page l rest =>
      modify (λ s, {| resources := resources s ++ l; by_service := by_service s |});;
      for_pages rest
  | PageError e => raise e
  end.

(** [arn.split(':')[2]], an IndexError when there are fewer than three
    fields. *)
Definition service_segment (arn : string) : exn + string :=
  match split ":"%char arn !! 2%nat with
  | Some service => inr service
  | None => inl (OtherException "list index out of range")
  end.

(** Lines 124-128: one turn of the loop over [resources]. *)
Definition group_resource (resource : TagMapping) : M tag_locals unit :=
  let arn := ResourceARN resource in
  service ← lift (service_segment arn);
  s ← get;
  (if negb (has_key (by_service s) service)
   then modify (λ s, {| resources := resources s;
                        by_service := by_service s ++ [(service, [])] |})
   else ret tt);;
  modify (λ s, {| resources := resources s;
                  by_service := append_arn service arn (by_service s) |}).

(** Lines 131-132. *)
Definition report_services (region : string) : M tag_locals unit :=
  s ← get;
  for_each (by_service s)
    (λ '(service, arns), print (MsgTaggedService service region (List.length arns))).

(** Lines 113-134, the body of the [try]. *)
Definition get_tagged_resources_try (boto3 : Boto3) (region : string)
    : M tag_locals (list TagMapping) :=
  pg ← lift (tagging_paginate boto3 region);
  for_pages pg;;
  s ← get;
  for_each (resources s) group_resource;;
  s ← get;
  print (MsgTaggedFound region (List.length (resources s)) (List.length (by_service s)));;
  report_services region;;
  s ← get;
  ret (resources s).

Definition get_tagged_resources_body (boto3 : Boto3) (region : string)
    : M tag_locals (list TagMapping) :=
  print (MsgFetchingTagged region);;
  try_except
    (get_tagged_resources_try boto3 region)
    (λ e, print (MsgTaggedError region (str e));; ret []).

Definition get_tagged_resources (boto3 : Boto3) (region : string)
    : Result (list TagMapping) :=
  exec initial_tag_locals (get_tagged_resources_body boto3 region).

(** ** main: the region loop (lines 185-222) *)

Record RegionResult : Type := {
  tagged_resources : list string;
  all_resources : gmap string scan_result;
}.

Record Metadata : Type := {
  timestamp : string;
  regions_scanned : list string;
  services_scanned : list string;
}.

(** [all_results], the structure handed to [json.dump]. *)
Record Snapshot : Type := {
  metadata : Metadata;
  resources_by_region : gmap string RegionResult;
}.

(** The locals of the loop: [all_results] and [region_resources]. *)
Record main_locals : Type := {
  all_results : Snapshot;
  region_resources : gmap string scan_result;
}.

(** [ThreadPoolExecutor(max_workers=threads)] refuses a pool without
    workers. *)
Definition ThreadPoolExecutor (threads : Z) : exn + unit :=
  if (threads <=? 0)%Z
  then inl (OtherException "max_workers must be greater than 0")
  else inr tt.

(** [concurrent.futures.as_completed]: the futures in the order they
    finish, given as the positions of the futures in the order they were
    submitted.  Every thread count admits every order. *)
Definition as_completed {A} (order : list nat) (futures : list A) : list A :=
  omap (λ i, futures !! i) order.

(** An order in which [n] submitted futures can finish. *)
Definition completion_order (n : nat) (order : list nat) : Prop :=
  order ≡ₚ seq 0 n.

(** [enumerate(xs)] *)
Definition enumerate {A} (xs : list A) : list (nat * A) :=
  zip (seq 0 (List.length xs)) xs.

(** Lines 213-216: one turn of the loop over the finished futures. *)
Definition merge_future (future : Result (string * string * scan_result))
    : M main_locals unit :=
  '(service_name, region_name, service_resources) ← call future;
  if truthy service_resources
  then modify (λ s, {| all_results := all_results s;
                       region_resources :=
                         <[service_name := service_resources]> (region_resources s) |})
  else ret tt.

(** Lines 197-222: one turn of the loop over [regions]; [order] is the
    order in which the futures of this region finish. *)
Definition scan_region (boto3 : Boto3) (services : list string) (threads : Z)
    (order : list nat) (region : string) : M main_locals unit :=
  print (MsgRegion region);;
  tagged ← call (get_tagged_resources boto3 region);
  print (MsgDiscovering region);;
  modify (λ s, {| all_results := all_results s; region_resources := ∅ |});;
  lift (ThreadPoolExecutor threads);;
  (let futures :=
     (λ service, discover_resources_for_service boto3 service region) <$> services in
   for_each (as_completed order futures) merge_future);;
  modify (λ s,
    {| all_results :=
         {| metadata := metadata (all_results s);
            resources_by_region :=
              <[region := {| tagged_resources := ResourceARN <$> tagged;
                             all_resources := region_resources s |}]>
                (resources_by_region (all_results s)) |};
       region_resources := region_resources s |}).

(** Lines 185-222 of [main], from the regions, services and thread count
    that lines 153-178 settled; [schedule i] is the order in which the
    futures of the [i]-th region finish.  The value is [all_results], the
    structure that lines 224-239 count and write out. *)
Definition main (boto3 : Boto3) (timestamp : string)
    (regions services : list string) (threads : Z)
    (schedule : nat → list nat) : Result Snapshot :=
  exec
    {| all_results :=
         {| metadata := {| timestamp := timestamp;
                           regions_scanned := regions;
                           services_scanned := services |};
            resources_by_region := ∅ |};
       region_resources := ∅ |}
    (for_each (enumerate regions)
       (λ '(i, region), scan_region boto3 services threads (schedule i) region);;
     s ← get;
     ret (all_results s)).

(** ** The rest of the program: pre-flight, catalogs, arguments, output *)

(** [sep.join(xs)] *)
Fixpoint join (sep : string) (xs : list string) : string :=
  match xs with
  | [] => ""
  | x :: xs' =>
      match xs' with
      | [] => x
      | _ :: _ => x +:+ sep +:+ join sep xs'
      end
  end.

(** [KeyError(key)]: its [str] is the key between quotes. *)
Definition KeyError (key : string) : exn :=
  OtherException ("'" +:+ key +:+ "'").

(** [d[key]] *)
Definition getitem {V} (d : gmap string V) (key : string) : exn + V :=
  match d !! key with
  | Some v => inr v
  | None => inl (KeyError key)
  end.

(** [[f(x) for x in xs]], the elements evaluated from left to right
    until one raises. *)
Fixpoint comprehension {A B} (f : A → exn + B) (xs : list A) : exn + list B :=
  match xs with
  | [] => inr []
  | x :: xs' =>
      match f x with
      | inl e => inl e
      | inr y =>
          match comprehension f xs' with
          | inl e => inl e
          | inr ys => inr (y :: ys)
          end
      end
  end.

(** How the STS call of lines 15-16 can fail: the two classes that
    lines 19 and 26 catch, and any other exception. *)
Inductive sts_failure : Type :=
  | StsClientError (msg : string)
  | StsNoCredentialsError
  | StsOtherError (msg : string).

(** The account as the program sees it besides the scanners' clients. *)
Record Aws : Type := {
  (** the clients of the two scanners *)
  scanners : Boto3;
  (** [boto3.client('sts').get_caller_identity()] *)
  get_caller_identity : sts_failure + gmap string value;
  (** [boto3.client('ec2', region_name='us-east-1').describe_regions()]:
      field name to list of records *)
  describe_regions : exn + gmap string (list (gmap string string));
  (** [boto3.Session().get_available_services()] *)
  get_available_services : list string;
  (** [open(output_file, "w")]: the exception it raises, if any *)
  open_w : string → option exn;
}.

(** The namespace that [parse_arguments] returns (lines 139-150). *)
Module Args.
Record t : Type := {
  regions : string;
  services : string;
  threads : Z;
  output : option string;
}.
End Args.

(** The lines of the program outside the scanners, by the line of the
    source.  The elapsed time of line 233 is left out. *)
Inductive line : Type :=
  | LnValidating                                               (* 14 *)
  | LnCredentialsValid (arn : value)                           (* 17 *)
  | LnCredentialsInvalid (err : string)                        (* 20-24 *)
  | LnNoCredentials                                            (* 27-31 *)
  | LnRegionsError (err : string)                              (* 41 *)
  | LnServicesWarning                                          (* 175 *)
  | LnBanner (timestamp : string) (n_regions : nat) (regions : string)
             (n_services : nat) (threads : Z)                  (* 180-183 *)
  | LnSummary (n_regions : nat) (regions : string) (total : nat) (* 230-233 *)
  | LnSaved (output_file : string).                            (* 239 *)

(** What the program does that can be seen: its own lines, the events
    of the scanners, and the file it writes (lines 236-237). *)
Inductive output : Type :=
  | Console (l : line)
  | Engine (ev : event)
  | WriteJson (output_file : string) (all_results : Snapshot).

(** How the program stops early: an exception that nothing catches, or
    [sys.exit(code)]. *)
Inductive stop : Type :=
  | Raise (e : exn)
  | SysExit (code : Z).

(** A piece of the program: what it shows, and its value or the way it
    stops. *)
Definition P (A : Type) : Type := list output * (stop + A).

Global Instance P_ret : MRet P := λ A a, ([], inr a).
Global Instance P_bind : MBind P := λ A B f m,
  match m with
  | (t, inl st) => (t, inl st)
  | (t, inr a) => let '(t', r) := f a in (t ++ t', r)
  end.

Definition say (l : line) : P unit := ([Console l], inr tt).

Definition sys_exit {A} (code : Z) : P A := ([], inl (SysExit code)).

(** An expression that may raise. *)
Definition attempt {A} (r : exn + A) : P A :=
  ([], match r with inl e => inl (Raise e) | inr a => inr a end).

(** A call of one of the scanners' functions. *)
Definition engine {A} (r : Result A) : P A :=
  (Engine <$> r.1, match r.2 with inl e => inl (Raise e) | inr a => inr a end).

(** [try: body except Exception as e: handler e]: [sys.exit] is not
    caught. *)
Definition try_exception {A} (body : P A) (handler : exn → P A) : P A :=
  match body with
  | (t, inl (Raise e)) => let '(t', r) := handler e in (t ++ t', r)
  | _ => body
  end.

(** *** validate_aws_credentials (lines 11-32) *)

Definition validate_aws_credentials (aws : Aws) : P bool :=
  say LnValidating;;
  match get_caller_identity aws with
  | inr caller_identity =>
      arn ← attempt (getitem caller_identity "Arn");
      say (LnCredentialsValid arn);;
      mret true
  | inl (StsClientError msg) => say (LnCredentialsInvalid msg);; mret false
  | inl StsNoCredentialsError => say LnNoCredentials;; mret false
  | inl (StsOtherError msg) => attempt (inl (OtherException msg))
  end.

(** *** get_available_regions (lines 34-43) *)

(** The list of line 43. *)
Definition default_regions : list string :=
  ["us-east-1"; "us-east-2"; "us-west-1"; "us-west-2"; "eu-west-1"].

Definition get_available_regions (aws : Aws) : P (list string) :=
  try_exception
    (response ← attempt (describe_regions aws);
     Regions ← attempt (getitem response "Regions");
     regions ← attempt
       (comprehension (λ region, getitem region "RegionName") Regions);
     mret regions)
    (λ e, say (LnRegionsError (str e));; mret default_regions).

(** *** get_all_aws_services (lines 45-47) *)

(** [sorted] on [str]: the order of the code points. *)
Definition sorted (xs : list string) : list string := merge_sort String.le xs.

Definition get_all_aws_services (aws : Aws) : list string :=
  sorted (get_available_services aws).

(** *** main (lines 152-239) *)

(** Lines 162-165. *)
Definition resolve_regions (aws : Aws) (args : Args.t) : P (list string) :=
  if String.eqb (lower (Args.regions args)) "all"
  then get_available_regions aws
  else mret (split ","%char (Args.regions args)).

(** Lines 168-175. *)
Definition resolve_services (aws : Aws) (args : Args.t) : P (list string) :=
  let all_services := get_all_aws_services aws in
  if String.eqb (lower (Args.services args)) "all"
  then mret all_services
  else
    let user_services := split ","%char (Args.services args) in
    let services :=
      List.filter (λ s, bool_decide (s ∈ all_services)) user_services in
    (if negb (length services =? length user_services)%nat
     then say LnServicesWarning else mret tt);;
    mret services.

(** Line 178: [None] and the empty string are both falsy. *)
Definition output_file (args : Args.t) (timestamp : string) : string :=
  match Args.output args with
  | Some (String c name) => String c name
  | _ => "aws_resources_" +:+ timestamp +:+ ".json"
  end.

(** Lines 225-228: the sum over [regions] of the lengths read back from
    [all_results]. *)
Definition total_tagged_resources (all_results : Snapshot)
    (regions : list string) : exn + nat :=
  match comprehension
          (λ region,
             match getitem (resources_by_region all_results) region with
             | inl e => inl e
             | inr rr => inr (length (tagged_resources rr))
             end) regions with
  | inl e => inl e
  | inr lengths => inr (sum_list lengths)
  end.

(** [main] in full, from parsed arguments; [timestamp] is the value of
    line 155 and [schedule] the completion orders of the region loop
    ([main] above is that loop). *)
Definition main_program (aws : Aws) (args : Args.t) (timestamp : string)
    (schedule : nat → list nat) : P unit :=
  valid ← validate_aws_credentials aws;
  (if negb valid then sys_exit 1 else mret tt);;
  regions ← resolve_regions aws args;
  services ← resolve_services aws args;
  let output_file := output_file args timestamp in
  say (LnBanner timestamp (length regions) (join ", " regions)
         (length services) (Args.threads args));;
  all_results ← engine (main (scanners aws) timestamp regions services
                          (Args.threads args) schedule);
  total ← attempt (total_tagged_resources all_results regions);
  say (LnSummary (length regions) (join ", " regions) total);;
  attempt (match open_w aws output_file with
           | Some e => inl e
           | None => inr tt
           end);;
  ([WriteJson output_file all_results], inr tt);;
  say (LnSaved output_file).

(** * Derived definitions *)

(** ** The vocabulary of the specification *)

(** [p] is a prefix, a suffix, a substring of [s]. *)
Definition starts_with (s p : string) : Prop := ∃ t, s = p +:+ t.
Definition ends_with (s p : string) : Prop := ∃ a, s = a +:+ p.
Definition has_substring (s p : string) : Prop := ∃ a b, s = a +:+ p +:+ b.

(** A value that is a sequence with at least one element. *)
Definition nonempty_sequence (v : value) : Prop := ∃ x l, v = VList (x :: l).

(** The failures the invoker skips without a word. *)
Definition expected_skip (e : exn) : Prop :=
  match e with
  | ClientError _ | ParamValidationError _ | OperationNotPageableError _ => True
  | OtherException _ => False
  end.

(** ** What the loops compute *)

(** The test of lines 87-89 on one field. *)
Definition kept (key : string) (v : value) : bool :=
  nonempty_list v || endswith_any (lower key) resource_suffixes.

Section ScannerTurn.
Context (c : Client) (service_name region : string).

(** What one turn of the loop of lines 74-103 adds to [resources]. *)
Definition found (operation : string) : option (gmap string value) :=
  if is_skipped operation then None
  else match invoke c operation with
       | inr response =>
           if truthy (filtered_response response)
           then Some (filtered_response response) else None
       | inl _ => None
       end.

(** What one turn of the loop prints and calls. *)
Definition operation_events (operation : string) : list event :=
  if is_skipped operation then []
  else Invoke service_name region operation ::
       match invoke c operation with
       | inr response =>
           if truthy (filtered_response response)
           then [Print (MsgFound service_name operation region
                          (found_count (filtered_response response)))]
           else []
       | inl (OtherException msg) =>
           [Print (MsgOperationError service_name operation region msg)]
       | inl _ => []
       end.

Definition operation_update (operation : string) (resources : scan_result)
    : scan_result :=
  match found operation with
  | Some filtered => <[operation := filtered]> resources
  | None => resources
  end.

End ScannerTurn.

(** The pages of a paginator that ends normally. *)
Definition pages_of (ps : list (list TagMapping)) : pages :=
  foldr Page Exhausted ps.

(** The records a paginator yields before it ends or raises. *)
Fixpoint page_records (pg : pages) : list TagMapping :=
  match pg with
  | Exhausted => []
  | Page l rest => l ++ page_records rest
  | PageError _ => []
  end.

(** The exception a paginator ends with, if any. *)
Fixpoint page_error (pg : pages) : option exn :=
  match pg with
  | Exhausted => None
  | Page _ rest => page_error rest
  | PageError e => Some e
  end.

(** The identifiers whose third colon-delimited field is [service]. *)
Definition arns_of_service (service : string) (rs : list TagMapping) : list string :=
  List.filter (λ arn, bool_decide (split ":"%char arn !! 2%nat = Some service))
    (ResourceARN <$> rs).

(** Lines 126-128 on [by_service]. *)
Definition group_step (service arn : string) (by_service : by_service_t)
    : by_service_t :=
  append_arn service arn
    (if has_key by_service service then by_service
     else by_service ++ [(service, [])]).

Definition group_record (by_service : by_service_t) (r : TagMapping)
    : by_service_t :=
  match split ":"%char (ResourceARN r) !! 2%nat with
  | Some service => group_step service (ResourceARN r) by_service
  | None => by_service
  end.

Section RegionValues.
Context (boto3 : Boto3).

(** The result of the scan of one service, and the records of the tag
    index of one region. *)
Definition scan (region service_name : string) : scan_result :=
  match (discover_resources_for_service boto3 service_name region).2 with
  | inr (_, _, res) => res
  | inl _ => ∅
  end.

Definition tagged (region : string) : list TagMapping :=
  match (get_tagged_resources boto3 region).2 with
  | inr l => l
  | inl _ => []
  end.

(** What line 215 lets through. *)
Definition kept_scan (region service_name : string) : option scan_result :=
  if truthy (scan region service_name)
  then Some (scan region service_name) else None.

(** [region_resources] after the futures of [svcs] were merged. *)
Definition merged (region : string) (svcs : list string)
    : gmap string scan_result :=
  foldl (λ m svc, match kept_scan region svc with
                  | Some res => <[svc := res]> m
                  | None => m
                  end) ∅ svcs.

Definition region_result (services : list string) (order : list nat)
    (region : string) : RegionResult :=
  {| tagged_resources := ResourceARN <$> tagged region;
     all_resources := merged region (as_completed order services) |}.

End RegionValues.

Section Fill.
Context {V : Type} (val : nat → string → V).

(** The dict a loop over [(i, region)] fills with one value per turn. *)
Definition fill (m : gmap string V) (irs : list (nat * string)) : gmap string V :=
  foldl (λ m ir, <[ir.2 := val ir.1 ir.2]> m) m irs.

End Fill.

(** ** Sample environments *)

(** A client on which every call is refused for a missing parameter. *)
Definition refusing_client : Client :=
  {| operation_names :=
       inr ["list_items"; "describe_things"; "put_item"; "list_buckets"];
     invoke := λ _, inl (ParamValidationError "missing required parameter") |}.

Definition refusing_boto3 : Boto3 :=
  {| client := λ _ _, inr refusing_client;
     tagging_paginate := λ _, inr Exhausted |}.

Definition s3_record : TagMapping :=
  {| ResourceARN := "arn:aws:s3:::logs"; Tags := [("env", "prod")] |}.

Definition ec2_record : TagMapping :=
  {| ResourceARN := "arn:aws:ec2:us-east-1:123456789012:instance/i-0abc";
     Tags := [("env", "prod")] |}.

(** Three pages of 100, 100 and 37 records. *)
Definition three_pages : list (list TagMapping) :=
  [replicate 100 s3_record; replicate 100 ec2_record; replicate 37 s3_record].

Definition paged_boto3 : Boto3 :=
  {| client := λ _ _, inl (OtherException "no endpoint");
     tagging_paginate := λ _, inr (pages_of three_pages) |}.

(** A client with one operation that finds something. *)
Definition items_client : Client :=
  {| operation_names := inr ["list_items"; "describe_things"; "list_buckets"];
     invoke := λ op,
       if bool_decide (op = "list_items")
       then inr {[ "Items" := VList [VInt 1; VInt 2; VInt 3];
                   "NextToken" := VStr "x" ]}
       else inl (ClientError "AccessDenied") |}.

(** "storage" finds something, "quiet" is refused everywhere, and any
    other service has no endpoint. *)
Definition sample_boto3 : Boto3 :=
  {| client := λ service_name _,
       if bool_decide (service_name = "storage") then inr items_client
       else if bool_decide (service_name = "quiet") then inr refusing_client
       else inl (OtherException "no endpoint");
     tagging_paginate := λ _, inr (pages_of [[s3_record]; [ec2_record]]) |}.

(** A client whose operations find something, time out, or are denied. *)
Definition flaky_client : Client :=
  {| operation_names :=
       inr ["list_items"; "describe_things"; "delete_item"; "list_documents";
            "get_all_widgets"];
     invoke := λ op,
       if bool_decide (op = "list_items")
       then inr {[ "Items" := VList [VInt 1; VInt 2; VInt 3];
                   "NextToken" := VStr "x" ]}
       else if bool_decide (op = "describe_things")
            then inl (OtherException "read timeout")
            else inl (ClientError "AccessDenied") |}.

Definition flaky_boto3 : Boto3 :=
  {| client := λ _ _, inr flaky_client;
     tagging_paginate := λ _, inr (pages_of [[s3_record]; [ec2_record]]) |}.

(** ** Reading a trace *)

(** The invocations of a trace, in order: service, region, operation. *)
Definition invocations (t : list event) : list (string * string * string) :=
  omap (λ ev, match ev with
              | Invoke s r op => Some (s, r, op)
              | Print _ => None
              end) t.

(** The error diagnostic that one turn of the loop of lines 74-103
    prints, if any. *)
Definition operation_diagnostic (c : Client)
    (service_name region operation : string) : option event :=
  if is_skipped operation then None
  else match invoke c operation with
       | inl (OtherException msg) =>
           Some (Print (MsgOperationError service_name operation region msg))
       | _ => None
       end.

(** The counts of the per-service lines of a trace (line 132). *)
Definition service_counts (t : list event) : list nat :=
  omap (λ ev, match ev with
              | Print (MsgTaggedService _ _ n) => Some n
              | _ => None
              end) t.

(** The lines that open the phases of a region: lines 197, 112, 203. *)
Definition is_phase_event (ev : event) : bool :=
  match ev with
  | Print (MsgRegion _) | Print (MsgFetchingTagged _)
  | Print (MsgDiscovering _) => true
  | _ => false
  end.

(** The events of the service scanner (lines 67-106). *)
Definition is_scanner_event (ev : event) : bool :=
  match ev with
  | Invoke _ _ _ | Print (MsgScanning _ _) | Print (MsgFound _ _ _ _)
  | Print (MsgOperationError _ _ _ _) | Print (MsgInitError _ _ _) => true
  | _ => false
  end.

(** The lines of the tag-index scanner after its first (lines 130-136). *)
Definition is_tag_report (ev : event) : bool :=
  match ev with
  | Print (MsgTaggedFound _ _ _) | Print (MsgTaggedService _ _ _)
  | Print (MsgTaggedError _ _) => true
  | _ => false
  end.

(** What one turn of the loop over the regions shows, when [svcs] is
    the order in which the scans of the services finish. *)
Definition region_trace (boto3 : Boto3) (svcs : list string) (region : string)
    : list event :=
  Print (MsgRegion region)
    :: (get_tagged_resources boto3 region).1
    ++ Print (MsgDiscovering region)
    :: concat ((λ svc, (discover_resources_for_service boto3 svc region).1)
                 <$> svcs).

(** ** Reading what the program shows *)

(** The lines of the program itself. *)
Definition is_console (o : output) : bool :=
  match o with
  | Console _ => true
  | _ => false
  end.

(** The files written, in order. *)
Definition writes (t : list output) : list (string * Snapshot) :=
  omap (λ o, match o with
             | WriteJson output_file all_results =>
                 Some (output_file, all_results)
             | _ => None
             end) t.

(** ** Sample accounts *)

(** An account whose credentials are accepted and whose region and
    service catalogs are short. *)
Definition sample_aws : Aws :=
  {| scanners := sample_boto3;
     get_caller_identity :=
       inr {[ "Arn" := VStr "arn:aws:iam::123456789012:user/ops" ]};
     describe_regions :=
       inr {[ "Regions" := [ {[ "RegionName" := "eu-west-1" ]};
                             {[ "RegionName" := "us-east-1" ]} ] ]};
     get_available_services := ["storage"; "quiet"; "ec2"];
     open_w := λ _, None |}.

(** The same account without credentials. *)
Definition anonymous_aws : Aws :=
  {| scanners := sample_boto3;
     get_caller_identity := inl StsNoCredentialsError;
     describe_regions := describe_regions sample_aws;
     get_available_services := get_available_services sample_aws;
     open_w := λ _, None |}.

Definition sample_args : Args.t :=
  {| Args.regions := "us-east-1,,eu-west-1";
     Args.services := "storage,bogus,quiet";
     Args.threads := 10;
     Args.output := None |}.

(** * Properties *)

(** ** Python string operations *)

Module PyStrFacts.

Lemma append_cons c s t : String c s +:+ t = String c (s +:+ t).
Proof. reflexivity. Qed.

Lemma startswith_spec s p : startswith s p = true ↔ starts_with s p.
Proof.
  unfold starts_with. revert s. induction p as [|a p IH]; intros s; simpl.
  - split; [intros _; by exists s | done].
  - destruct s as [|b s].
    + split; [done | intros [t Ht]; discriminate].
    + destruct (Ascii.eqb a b) eqn:Hab.
      * apply Ascii.eqb_eq in Hab as ->. rewrite IH.
        split; intros [t Ht]; exists t; rewrite append_cons in *; congruence.
      * split; [done | intros [t Ht]].
        injection Ht as -> _. by rewrite Ascii.eqb_refl in Hab.
Qed.

Lemma contains_spec s p : contains s p = true ↔ has_substring s p.
Proof.
  unfold has_substring. induction s as [|c s IH]; cbn [contains].
  - rewrite orb_false_r, startswith_spec. split.
    + intros [t Ht]. by exists "", t.
    + intros ([|x a] & b & H); [by exists b | discriminate].
  - rewrite orb_true_iff, startswith_spec, IH. split.
    + intros [[t Ht] | (a & b & ->)]; [by exists "", t | by exists (String c a), b].
    + intros ([|x a] & b & H); [left; by exists b |].
      right. injection H as -> ->. by exists a, b.
Qed.

Lemma endswith_spec s p : endswith s p = true ↔ ends_with s p.
Proof.
  unfold ends_with. induction s as [|c s IH]; cbn [endswith].
  - rewrite orb_false_r, String.eqb_eq. split.
    + intros <-. by exists "".
    + intros ([|x a] & H); [done | discriminate].
  - rewrite orb_true_iff, String.eqb_eq, IH. split.
    + intros [<- | [a ->]]; [by exists "" | by exists (String c a)].
    + intros ([|x a] & H); [by left |].
      right. injection H as -> ->. by exists a.
Qed.

Lemma endswith_any_spec s ps :
  endswith_any s ps = true ↔ ∃ p, p ∈ ps ∧ ends_with s p.
Proof.
  unfold endswith_any. rewrite existsb_exists.
  split; intros (p & Hp & H); exists p.
  - by rewrite <- endswith_spec, list_elem_of_In.
  - by rewrite endswith_spec, <- list_elem_of_In.
Qed.

End PyStrFacts.

Import PyStrFacts.

(** The condition of the classifier, in the words of the specification. *)
Lemma listing_shaped_spec x :
  listing_shaped x = true ↔
    starts_with (lower x) "list" ∨ starts_with (lower x) "describe" ∨
    (starts_with (lower x) "get" ∧
     (has_substring (lower x) "list" ∨ has_substring (lower x) "all")).
Proof.
  unfold listing_shaped. cbv zeta.
  rewrite !orb_true_iff, andb_true_iff, orb_true_iff.
  rewrite !startswith_spec, !contains_spec. tauto.
Qed.

(** ** Running a function body *)

Section BodyFacts.
Context {St : Type}.
Implicit Types s : St.

Lemma bind_inr {A B} (m : M St A) (f : A → M St B) s t s' a :
  m s = (t, s', inr a) →
  (m ≫= f) s = (let '(t', s'', r) := f a s' in (t ++ t', s'', r)).
Proof. unfold mbind, M_bind, bind. by intros ->. Qed.

(** A loop whose turns all end normally, each with events [ev x] and
    the update [upd x] of the locals. *)
Lemma for_each_pure {A} (ev : A → list event) (upd : A → St → St)
    (body : A → M St unit) (xs : list A) :
  (∀ x s, x ∈ xs → body x s = (ev x, upd x s, inr tt)) →
  ∀ s, for_each xs body s
       = (concat (ev <$> xs), foldl (λ s x, upd x s) s xs, inr tt).
Proof.
  induction xs as [|x xs IH]; intros Hbody s; [done |].
  simpl. unfold bind. rewrite Hbody by left.
  rewrite IH by (intros; apply Hbody; by right). done.
Qed.

(** A [try] whose handler ends normally ends normally. *)
Lemma try_except_total {A} (body : M St A) (handler : exn → M St A) :
  (∀ e s, ∃ t s' a, handler e s = (t, s', inr a)) →
  ∀ s, ∃ t s' a, try_except body handler s = (t, s', inr a).
Proof.
  intros Hh s. unfold try_except.
  destruct (body s) as [[t s'] [e|a]]; [| by eauto].
  destruct (Hh e s') as (t' & s'' & a & ->). by eauto.
Qed.

End BodyFacts.

(** ** The classifier *)

Lemma classifier_loop (names acc : list string) :
  for_each names
    (λ operation_name,
       if listing_shaped operation_name
       then modify (λ list_operations, list_operations ++ [operation_name])
       else ret tt) acc
  = ([], acc ++ List.filter listing_shaped names, inr tt).
Proof.
  revert acc. induction names as [|x names IH]; intros acc; simpl.
  - by rewrite app_nil_r.
  - unfold bind. destruct (listing_shaped x); simpl.
    + unfold modify. rewrite IH. by rewrite <- app_assoc.
    + unfold ret at 1. by rewrite IH.
Qed.

Lemma get_list_operations_inr names inv :
  get_list_operations {| operation_names := inr names; invoke := inv |}
  = ([], inr (List.filter listing_shaped names)).
Proof.
  unfold get_list_operations, exec, try_except, mbind, M_bind, bind, lift. simpl.
  by rewrite classifier_loop.
Qed.

Lemma get_list_operations_inl e inv :
  get_list_operations {| operation_names := inl e; invoke := inv |} = ([], inr []).
Proof. reflexivity. Qed.

(** Whatever the client, the classifier returns a list and prints
    nothing. *)
Lemma get_list_operations_total (c : Client) :
  ∃ ops, get_list_operations c = ([], inr ops) ∧
         ∀ names, operation_names c = inr names →
                  ops = List.filter listing_shaped names.
Proof.
  destruct c as [[e|names] inv].
  - exists []. split; [apply get_list_operations_inl | by intros].
  - exists (List.filter listing_shaped names).
    split; [apply get_list_operations_inr |]. intros ? [= <-]. done.
Qed.

Lemma filter_sublist {A} (f : A → bool) (l : list A) : sublist (List.filter f l) l.
Proof.
  induction l as [|x l IH]; simpl; [constructor |].
  destruct (f x); by constructor.
Qed.

Lemma filter_idem {A} (f : A → bool) (l : list A) :
  List.filter f (List.filter f l) = List.filter f l.
Proof.
  induction l as [|x l IH]; simpl; [done |].
  destruct (f x) eqn:Hx; simpl; rewrite ?Hx, IH; done.
Qed.

(** Every entry of the list of lines 77-78 passes the naming test. *)
Lemma skipped_listing_shaped x : is_skipped x = true → listing_shaped x = true.
Proof.
  unfold is_skipped, skipped_operations. intros H%bool_decide_eq_true.
  repeat (apply elem_of_cons in H as [-> | H]; [reflexivity |]).
  by apply elem_of_nil in H.
Qed.

Lemma filter_skipped_classified (names : list string) :
  List.filter is_skipped (List.filter listing_shaped names)
  = List.filter is_skipped names.
Proof.
  induction names as [|x names IH]; simpl; [done |].
  destruct (listing_shaped x) eqn:Hx; simpl; rewrite IH; [done |].
  destruct (is_skipped x) eqn:Hs; [| done].
  apply skipped_listing_shaped in Hs. congruence.
Qed.

(** C1, as the code has it: the output of the classifier is a sublist
    of the operation names and classifying it again changes nothing; the
    identifiers of the skip list are not removed by the classifier, each
    one among the operation names is in its output (it is the scanner
    that passes over them). *)
Theorem classifier_subset_idempotent_keeps_skipped
    (names : list string) (inv : string → exn + gmap string value) :
  ∃ out,
    get_list_operations {| operation_names := inr names; invoke := inv |}
      = ([], inr out) ∧
    sublist out names ∧
    get_list_operations {| operation_names := inr out; invoke := inv |}
      = ([], inr out) ∧
    List.filter is_skipped out = List.filter is_skipped names.
Proof.
  exists (List.filter listing_shaped names). split_and!.
  - apply get_list_operations_inr.
  - apply filter_sublist.
  - by rewrite get_list_operations_inr, filter_idem.
  - apply filter_skipped_classified.
Qed.

(** C1 as stated fails: [list_buckets] is on the skip list and the
    classifier returns it. *)
Lemma classifier_returns_list_buckets :
  get_list_operations
    {| operation_names := inr ["list_buckets"; "put_object"];
       invoke := λ _, inl (ClientError "") |}
    = ([], inr ["list_buckets"])
  ∧ "list_buckets" ∈ skipped_operations.
Proof. split; [reflexivity | by apply (bool_decide_unpack _)]. Qed.

(** C3: an operation name is in the output of the classifier exactly
    when it is one of the client's operation names and, lower-cased, it
    starts with "list" or "describe", or starts with "get" and has
    "list" or "all" as a substring. *)
Theorem classifier_policy
    (names : list string) (inv : string → exn + gmap string value) :
  ∃ out,
    get_list_operations {| operation_names := inr names; invoke := inv |}
      = ([], inr out) ∧
    ∀ x, x ∈ out ↔
      x ∈ names ∧
      (starts_with (lower x) "list" ∨ starts_with (lower x) "describe" ∨
       (starts_with (lower x) "get" ∧
        (has_substring (lower x) "list" ∨ has_substring (lower x) "all"))).
Proof.
  exists (List.filter listing_shaped names).
  split; [apply get_list_operations_inr |]. intros x.
  rewrite !list_elem_of_In, filter_In, <- listing_shaped_spec. done.
Qed.

(** ** The extractor *)

Lemma nonempty_list_spec v : nonempty_list v = true ↔ nonempty_sequence v.
Proof.
  unfold nonempty_sequence. destruct v as [| | | |[|x l]|]; simpl;
    (split; [try done; by eauto | by intros (? & ? & ?)]).
Qed.

Lemma kept_spec key v :
  kept key v = true ↔
    nonempty_sequence v ∨
    ∃ suffix, suffix ∈ resource_suffixes ∧ ends_with (lower key) suffix.
Proof.
  unfold kept. by rewrite orb_true_iff, nonempty_list_spec, endswith_any_spec.
Qed.

Lemma filtered_response_lookup (response : gmap string value) key :
  filtered_response response !! key
  = match response !! key with
    | Some v => if kept key v then Some v else None
    | None => None
    end.
Proof.
  unfold filtered_response. revert key.
  apply (map_fold_weak_ind (λ acc m, ∀ key,
    acc !! key = match m !! key with
                 | Some v => if kept key v then Some v else None
                 | None => None
                 end)).
  - intros key. by rewrite !lookup_empty.
  - intros k v m acc Hk IH key. unfold kept in *.
    destruct (decide (k = key)) as [-> | Hne].
    + rewrite lookup_insert_eq.
      destruct (nonempty_list v); cbn [orb]; [by rewrite lookup_insert_eq |].
      destruct (endswith_any (lower key) resource_suffixes);
        [by rewrite lookup_insert_eq |].
      by rewrite IH, Hk.
    + rewrite (lookup_insert_ne m) by done. rewrite <- IH.
      destruct (nonempty_list v); cbn [orb]; [by rewrite lookup_insert_ne |].
      destruct (endswith_any (lower k) resource_suffixes);
        [by rewrite lookup_insert_ne | done].
Qed.

(** C2: the output of the extractor is a sub-mapping of the response,
    and a field of the response is in it exactly when its value is a
    non-empty sequence or its lower-cased name ends with one of "list",
    "ids", "arns", "names", "summaries". *)
Theorem extractor_rule (response : gmap string value) :
  filtered_response response ⊆ response ∧
  ∀ key v, response !! key = Some v →
    (filtered_response response !! key = Some v ↔
       nonempty_sequence v ∨
       ∃ suffix,
         suffix ∈ ["list"; "ids"; "arns"; "names"; "summaries"] ∧
         ends_with (lower key) suffix).
Proof.
  split.
  - apply map_subseteq_spec. intros key v. rewrite filtered_response_lookup.
    destruct (response !! key) as [w|]; [| done]. by destruct (kept key w).
  - intros key v Hv.
    change ["list"; "ids"; "arns"; "names"; "summaries"] with resource_suffixes.
    rewrite filtered_response_lookup, Hv, <- kept_spec.
    by destruct (kept key v).
Qed.

(** ** Dicts filled by a loop *)

(** A loop that stores [g k] under [k] for the keys [k] that have one:
    the dict it leaves. *)
Lemma foldl_insert_lookup {V} (g : string → option V) (ks : list string)
    (m : gmap string V) (k : string) :
  foldl (λ m k, match g k with Some v => <[k := v]> m | None => m end) m ks !! k
  = if decide (k ∈ ks)
    then match g k with Some v => Some v | None => m !! k end
    else m !! k.
Proof.
  revert m. induction ks as [|k0 ks IH]; intros m; [done |].
  cbn [foldl]. rewrite IH. destruct (decide (k = k0)) as [-> | Hne].
  - rewrite (decide_True (P := k0 ∈ k0 :: ks)) by left.
    destruct (g k0) as [v|] eqn:Hg.
    + rewrite lookup_insert_eq. by destruct (decide (k0 ∈ ks)).
    + by destruct (decide (k0 ∈ ks)).
  - assert (match g k0 with Some v => <[k0 := v]> m | None => m end !! k
            = m !! k) as ->.
    { destruct (g k0); [by rewrite lookup_insert_ne | done]. }
    destruct (decide (k ∈ ks)) as [Hin | Hin].
    + by rewrite decide_True by by right.
    + rewrite decide_False; [done |]. by intros [?|?]%elem_of_cons.
Qed.

(** ** The service scanner *)

Section Scanner.
Context (c : Client) (service_name region : string).

Lemma scan_operation_run operation (resources : scan_result) :
  scan_operation c service_name region operation resources
  = (operation_events c service_name region operation, operation_update c operation resources, inr tt).
Proof.
  unfold scan_operation, operation_events, operation_update, found, try_except.
  destruct (is_skipped operation); [done |].
  unfold mbind, M_bind, bind, emit, lift. simpl.
  destruct (invoke c operation) as [e|response]; [by destruct e |].
  simpl. by destruct (truthy (filtered_response response)).
Qed.

Lemma scan_loop (ops : list string) (resources : scan_result) :
  for_each ops (scan_operation c service_name region) resources
  = (concat (operation_events c service_name region <$> ops),
     foldl (λ res op, operation_update c op res) resources ops, inr tt).
Proof. apply for_each_pure. intros. apply scan_operation_run. Qed.

Lemma scan_fold_lookup (ops : list string) (resources : scan_result) k :
  foldl (λ res op, operation_update c op res) resources ops !! k
  = if decide (k ∈ ops)
    then match found c k with Some f => Some f | None => resources !! k end
    else resources !! k.
Proof. apply (foldl_insert_lookup (found c)). Qed.

(** An operation is invoked only when it is not on the skip list. *)
Lemma operation_events_invoke operation s r op :
  Invoke s r op ∈ operation_events c service_name region operation → is_skipped op = false.
Proof.
  unfold operation_events. destruct (is_skipped operation) eqn:Hs.
  - by intros ?%elem_of_nil.
  - intros [[= _ _ ->] | H]%elem_of_cons; [done |].
    destruct (invoke c operation) as [[]|response];
      try destruct (truthy _);
      repeat (apply elem_of_cons in H as [? | H]; [done |]);
      by apply elem_of_nil in H.
Qed.

(** A turn whose invocation fails as expected prints no error. *)
Lemma operation_events_quiet operation e :
  invoke c operation = inl e → expected_skip e →
  Forall (λ ev, is_error_event ev = false) (operation_events c service_name region operation).
Proof.
  unfold operation_events. intros -> He.
  destruct (is_skipped operation); [constructor |].
  destruct e; try done; by repeat constructor.
Qed.

End Scanner.

Section Discover.
Context (boto3 : Boto3) (service_name region : string).

Lemma discover_client_error e :
  client boto3 service_name region = inl e →
  discover_resources_for_service boto3 service_name region
  = ([Print (MsgScanning service_name region);
      Print (MsgInitError service_name region (str e))],
     inr (service_name, region, ∅)).
Proof.
  intros H. unfold discover_resources_for_service, exec, try_except,
    mbind, M_bind, bind, lift, print, emit. simpl. by rewrite H.
Qed.

Lemma discover_client_ok c ops :
  client boto3 service_name region = inr c →
  get_list_operations c = ([], inr ops) →
  discover_resources_for_service boto3 service_name region
  = (Print (MsgScanning service_name region)
       :: concat (operation_events c service_name region <$> ops),
     inr (service_name, region,
          foldl (λ res op, operation_update c op res) ∅ ops)).
Proof.
  intros Hc Hops. unfold discover_resources_for_service, exec, try_except,
    mbind, M_bind, bind, lift, print, emit, call. simpl.
  rewrite Hc, Hops. simpl. rewrite scan_loop. simpl.
  by rewrite app_nil_r.
Qed.

(** The scanner always returns: its triple carries the service and
    the region it was called with. *)
Lemma discover_total :
  ∃ t res, discover_resources_for_service boto3 service_name region
           = (t, inr (service_name, region, res)).
Proof.
  destruct (client boto3 service_name region) as [e|c] eqn:Hc.
  - eexists _, _. by apply discover_client_error.
  - destruct (get_list_operations_total c) as (ops & Hops & _).
    eexists _, _. by eapply discover_client_ok.
Qed.

End Discover.

Lemma elem_of_concat_fmap {A B} (f : A → list B) (xs : list A) (y : B) :
  y ∈ concat (f <$> xs) ↔ ∃ x, x ∈ xs ∧ y ∈ f x.
Proof.
  induction xs as [|x xs IH]; simpl.
  - split; [by intros ?%elem_of_nil | by intros (? & ?%elem_of_nil & _)].
  - rewrite elem_of_app, IH. split.
    + intros [H | (x' & Hx' & H)]; [exists x; split; [left | done] |].
      exists x'. split; [by right | done].
    + intros (x' & [-> | Hx']%elem_of_cons & H); [by left |]. right. eauto.
Qed.

(** C9: no identifier of the skip list is a key of a scan result, and
    none is invoked: the classifier lets them through, the scanner
    passes over each before the call. *)
Theorem scan_result_avoids_skipped (boto3 : Boto3) (service_name region : string) :
  ∃ t res,
    discover_resources_for_service boto3 service_name region
      = (t, inr (service_name, region, res)) ∧
    ∀ op, op ∈ skipped_operations →
      res !! op = None ∧ Invoke service_name region op ∉ t.
Proof.
  destruct (client boto3 service_name region) as [e|c] eqn:Hc.
  - eexists _, _. split; [by apply discover_client_error |].
    intros op _. split; [apply lookup_empty |].
    intros [?|[?|?%elem_of_nil]%elem_of_cons]%elem_of_cons; done.
  - destruct (get_list_operations_total c) as (ops & Hops & _).
    eexists _, _. split; [by eapply discover_client_ok |].
    intros op Hop. assert (is_skipped op = true) as Hs
      by by apply bool_decide_eq_true.
    split.
    + rewrite scan_fold_lookup. unfold found. rewrite Hs, lookup_empty.
      by destruct (decide (op ∈ ops)).
    + intros [? | H]%elem_of_cons; [done |].
      apply elem_of_concat_fmap in H as (operation & _ & H).
      apply operation_events_invoke in H. congruence.
Qed.

(** C6: when every invocation the scanner makes on a client fails with
    an expected-skip outcome, the scan result is empty and no error
    diagnostic is printed. *)
Theorem expected_skips_give_empty_quiet_scan
    (boto3 : Boto3) (service_name region : string) (c : Client) :
  client boto3 service_name region = inr c →
  (∀ names op,
     operation_names c = inr names → op ∈ names →
     listing_shaped op = true → is_skipped op = false →
     ∃ e, invoke c op = inl e ∧ expected_skip e) →
  ∃ t,
    discover_resources_for_service boto3 service_name region
      = (t, inr (service_name, region, ∅)) ∧
    Forall (λ ev, is_error_event ev = false) t.
Proof.
  intros Hc Hfail.
  destruct (get_list_operations_total c) as (ops & Hops & Hnames).
  assert (∀ op, op ∈ ops → is_skipped op = false →
                ∃ e, invoke c op = inl e ∧ expected_skip e) as Hall.
  { intros op Hop Hs. destruct (operation_names c) as [e|names] eqn:Hn.
    - destruct c as [on inv]. simpl in Hn. subst on.
      rewrite get_list_operations_inl in Hops.
      injection Hops as <-. by apply elem_of_nil in Hop.
    - rewrite (Hnames names eq_refl) in Hop.
      apply list_elem_of_In, filter_In in Hop as [Hin Hl].
      apply (Hfail names); [done | by apply list_elem_of_In | done | done]. }
  eexists. split.
  - rewrite (discover_client_ok _ _ _ c ops Hc Hops). do 3 f_equal.
    apply map_eq. intros k. rewrite scan_fold_lookup, lookup_empty.
    destruct (decide (k ∈ ops)) as [Hin|]; [| done].
    unfold found. destruct (is_skipped k) eqn:Hs; [done |].
    destruct (Hall k Hin Hs) as (e & -> & _). done.
  - constructor; [done |]. apply Forall_concat, Forall_fmap, Forall_forall.
    intros op Hop. simpl. destruct (is_skipped op) eqn:Hs.
    + unfold operation_events. rewrite Hs. constructor.
    + destruct (Hall op Hop Hs) as (e & He & Hexp).
      by eapply operation_events_quiet.
Qed.

Lemma expected_skips_give_empty_quiet_scan_witness :
  ∃ t,
    discover_resources_for_service refusing_boto3 "dynamodb" "eu-west-1"
      = (t, inr ("dynamodb", "eu-west-1", ∅)) ∧
    Forall (λ ev, is_error_event ev = false) t.
Proof.
  apply (expected_skips_give_empty_quiet_scan
           refusing_boto3 "dynamodb" "eu-west-1" refusing_client).
  - reflexivity.
  - intros names op _ _ _ _. eexists. split; [reflexivity | exact I].
Defined.

(** ** The tag-index scanner *)

Section TagScanner.
Context (boto3 : Boto3) (region : string).

Lemma page_records_of ps : page_records (pages_of ps) = concat ps.
Proof. induction ps as [|p ps IH]; simpl; [done | by rewrite IH]. Qed.

Lemma page_error_of ps : page_error (pages_of ps) = None.
Proof. induction ps as [|p ps IH]; simpl; done. Qed.

Lemma for_pages_run pg (s : tag_locals) :
  for_pages pg s
  = ([], {| resources := resources s ++ page_records pg;
            by_service := by_service s |},
     match page_error pg with Some e => inl e | None => inr tt end).
Proof.
  revert s. induction pg as [|l rest IH|e]; intros [rs bs]; simpl.
  - by rewrite app_nil_r.
  - unfold mbind, M_bind, bind, modify. rewrite IH. simpl.
    by rewrite <- app_assoc.
  - by rewrite app_nil_r.
Qed.

Lemma group_resource_run r (s : tag_locals) :
  is_Some (split ":"%char (ResourceARN r) !! 2%nat) →
  group_resource r s
  = ([], {| resources := resources s;
            by_service := group_record (by_service s) r |}, inr tt).
Proof.
  intros [service Hs]. unfold group_resource, group_record, group_step,
    service_segment. rewrite Hs.
  unfold mbind, M_bind, bind, lift, get, modify, ret. simpl.
  by destruct (has_key (by_service s) service).
Qed.

Lemma group_loop (rs : list TagMapping) (s : tag_locals) :
  Forall (λ r, is_Some (split ":"%char (ResourceARN r) !! 2%nat)) rs →
  for_each rs group_resource s
  = ([], {| resources := resources s;
            by_service := foldl group_record (by_service s) rs |}, inr tt).
Proof.
  revert s. induction rs as [|r rs IH]; intros [rs0 bs] Hrs.
  - done.
  - apply Forall_cons in Hrs as [Hr Hrs]. simpl. unfold bind.
    rewrite group_resource_run by done. by rewrite IH.
Qed.

Lemma report_services_run (s : tag_locals) :
  report_services region s
  = ((λ kv, Print (MsgTaggedService kv.1 region (List.length kv.2)))
       <$> by_service s, s, inr tt).
Proof.
  unfold report_services, mbind, M_bind, bind, get. simpl.
  generalize (by_service s) as bs. induction bs as [|[service arns] bs IH].
  - done.
  - simpl in *. unfold bind, print, emit.
    destruct (for_each bs _ s) as [[t s'] r]. by injection IH as -> -> ->.
Qed.

(** The scanner when the index cannot be queried at all. *)
Lemma get_tagged_resources_unavailable e :
  tagging_paginate boto3 region = inl e →
  get_tagged_resources boto3 region
  = ([Print (MsgFetchingTagged region); Print (MsgTaggedError region (str e))],
     inr []).
Proof.
  intros H. unfold get_tagged_resources, get_tagged_resources_body,
    get_tagged_resources_try, exec, try_except, mbind, M_bind, bind,
    lift, print, emit. simpl. by rewrite H.
Qed.

(** The scanner when a page cannot be fetched. *)
Lemma get_tagged_resources_page_error pg e :
  tagging_paginate boto3 region = inr pg → page_error pg = Some e →
  get_tagged_resources boto3 region
  = ([Print (MsgFetchingTagged region); Print (MsgTaggedError region (str e))],
     inr []).
Proof.
  intros H He. unfold get_tagged_resources, get_tagged_resources_body,
    get_tagged_resources_try, exec, try_except, mbind, M_bind, bind,
    lift, print, emit. simpl. rewrite H, for_pages_run, He. done.
Qed.

(** The scanner always returns. *)
Lemma get_tagged_resources_total :
  ∃ t l, get_tagged_resources boto3 region = (t, inr l).
Proof.
  destruct (try_except_total (get_tagged_resources_try boto3 region)
              (λ e, print (MsgTaggedError region (str e));; ret [])
              (λ e s, ex_intro _ _ (ex_intro _ _ (ex_intro _ _ eq_refl)))
              initial_tag_locals) as (t & s' & l & H).
  unfold get_tagged_resources, exec, get_tagged_resources_body.
  erewrite bind_inr by reflexivity. rewrite H. by eauto.
Qed.

(** The scanner on a paginator that ends normally, when every
    identifier has a third field. *)
Lemma get_tagged_resources_body_ok pg :
  tagging_paginate boto3 region = inr pg → page_error pg = None →
  Forall (λ r, is_Some (split ":"%char (ResourceARN r) !! 2%nat))
    (page_records pg) →
  let grouped := foldl group_record [] (page_records pg) in
  get_tagged_resources_body boto3 region initial_tag_locals
  = (Print (MsgFetchingTagged region)
       :: Print (MsgTaggedFound region (List.length (page_records pg))
                   (List.length grouped))
       :: ((λ kv, Print (MsgTaggedService kv.1 region (List.length kv.2)))
             <$> grouped),
     {| resources := page_records pg; by_service := grouped |},
     inr (page_records pg)).
Proof.
  intros H He Hrs. unfold get_tagged_resources_body,
    get_tagged_resources_try, try_except, initial_tag_locals.
  unfold mbind, M_bind, bind, lift, print, emit, get. simpl.
  rewrite H, for_pages_run, He. simpl.
  rewrite group_loop by done. simpl.
  rewrite report_services_run. simpl. by rewrite app_nil_r.
Qed.

End TagScanner.

(** *** Grouping by service *)

Lemma append_arn_keys service arn (B : by_service_t) :
  (append_arn service arn B).*1 = B.*1.
Proof.
  unfold append_arn. induction B as [|[k l] B IH]; [done |].
  rewrite !fmap_cons, IH. f_equal. simpl. by case_bool_decide.
Qed.

Lemma elem_of_append_arn service arn (B : by_service_t) svc l :
  (svc, l) ∈ append_arn service arn B ↔
    ∃ l0, (svc, l0) ∈ B ∧
          l = if bool_decide (svc = service) then l0 ++ [arn] else l0.
Proof.
  unfold append_arn. rewrite list_elem_of_fmap. split.
  - intros ([k l0] & Heq & Hin). simpl in Heq.
    case_bool_decide; injection Heq as -> ->; exists l0;
      (split; [done |]); [by rewrite bool_decide_eq_true_2 |
                          by rewrite bool_decide_eq_false_2].
  - intros (l0 & Hin & ->). exists (svc, l0). split; [| done]. simpl.
    by case_bool_decide.
Qed.

Lemma arns_of_service_snoc service rs r :
  arns_of_service service (rs ++ [r])
  = arns_of_service service rs ++
    (if bool_decide (split ":"%char (ResourceARN r) !! 2%nat = Some service)
     then [ResourceARN r] else []).
Proof.
  unfold arns_of_service. by rewrite fmap_app, List.filter_app.
Qed.

(** The dict of lines 122-128 after the loop: one entry for each service
    with at least one identifier, holding the identifiers of that
    service in the order of [resources]. *)
Lemma grouped_spec (rs : list TagMapping) :
  Forall (λ r, is_Some (split ":"%char (ResourceARN r) !! 2%nat)) rs →
  NoDup (foldl group_record [] rs).*1 ∧
  ∀ svc arns,
    (svc, arns) ∈ foldl group_record [] rs ↔
      arns ≠ [] ∧ arns = arns_of_service svc rs.
Proof.
  induction rs as [|r rs IH] using rev_ind; intros Hrs.
  - split; [constructor |]. intros svc arns. split.
    + by intros ?%elem_of_nil.
    + by intros [? ->].
  - apply Forall_app in Hrs as [Hrs [[s0 Hs0] _]%Forall_cons].
    destruct (IH Hrs) as [Hnd Hin]. rewrite foldl_snoc.
    set (G := foldl group_record [] rs) in *.
    unfold group_record. rewrite Hs0. unfold group_step, has_key.
    assert (∀ svc, bool_decide (split ":"%char (ResourceARN r) !! 2%nat = Some svc)
                   = bool_decide (svc = s0)) as Hthird.
    { intros svc. rewrite Hs0. apply bool_decide_ext.
      split; [by intros [= ->] | by intros ->]. }
    case_bool_decide as Hk.
    + apply list_elem_of_fmap in Hk as ([k l0'] & Hk & Hl0'). simpl in Hk. subst k.
      pose proof (proj1 (Hin _ _) Hl0') as [Hne0 ->].
      split; [by rewrite append_arn_keys |]. intros svc arns.
      rewrite elem_of_append_arn, arns_of_service_snoc, Hthird. split.
      * intros (l0 & Hl0 & ->). apply Hin in Hl0 as [Hne ->].
        case_bool_decide; [| by rewrite app_nil_r].
        split; [| done]. by intros [? _]%app_eq_nil.
      * intros [Hne ->]. exists (arns_of_service svc rs).
        case_bool_decide as Hsvc; [by subst svc |].
        rewrite app_nil_r in *. split; [by apply Hin | done].
    + assert (arns_of_service s0 rs = []) as Hnone.
      { destruct (arns_of_service s0 rs) as [|a l] eqn:Ha; [done |].
        exfalso. apply Hk. apply list_elem_of_fmap.
        exists (s0, a :: l). split; [done |]. apply Hin. by rewrite Ha. }
      split.
      * rewrite append_arn_keys, fmap_app. apply NoDup_app. split_and!.
        -- done.
        -- intros x Hx ->%list_elem_of_singleton. done.
        -- apply NoDup_singleton.
      * intros svc arns.
        rewrite elem_of_append_arn, arns_of_service_snoc, Hthird. split.
        -- intros (l0 & [Hl0 | Hl0%list_elem_of_singleton]%elem_of_app & ->).
           ++ pose proof (proj1 (Hin _ _) Hl0) as [Hne ->].
              case_bool_decide as Hsvc; [| by rewrite app_nil_r].
              subst svc. by rewrite Hnone in Hne.
           ++ injection Hl0 as -> ->. rewrite bool_decide_eq_true_2 by done.
              by rewrite Hnone.
        -- intros [Hne ->]. case_bool_decide as Hsvc.
           ++ subst svc. exists []. rewrite Hnone. split; [| done].
              apply elem_of_app. right. by apply list_elem_of_singleton.
           ++ exists (arns_of_service svc rs). rewrite app_nil_r in *.
              split; [| done]. apply elem_of_app. left. by apply Hin.
Qed.

(** C8, as the code has it: when every resource identifier of a
    paginated response has at least three colon-delimited fields, the
    scanner returns the concatenation of the pages, and its grouping has
    one entry per service segment (the third field), holding the
    identifiers of that service. *)
Theorem tag_index_returns_all_pages_grouped
    (boto3 : Boto3) (region : string) (ps : list (list TagMapping)) :
  tagging_paginate boto3 region = inr (pages_of ps) →
  Forall (λ r, is_Some (split ":"%char (ResourceARN r) !! 2%nat)) (concat ps) →
  ∃ t s',
    get_tagged_resources_body boto3 region initial_tag_locals
      = (t, s', inr (concat ps)) ∧
    get_tagged_resources boto3 region = (t, inr (concat ps)) ∧
    Print (MsgTaggedFound region (length (concat ps)) (length (by_service s')))
      ∈ t ∧
    NoDup (by_service s').*1 ∧
    ∀ svc arns,
      (svc, arns) ∈ by_service s' ↔
        arns ≠ [] ∧ arns = arns_of_service svc (concat ps).
Proof.
  intros Hpg Hrs.
  pose proof (get_tagged_resources_body_ok boto3 region (pages_of ps) Hpg
                (page_error_of ps)) as Hbody.
  rewrite page_records_of in Hbody. specialize (Hbody Hrs). cbv zeta in Hbody.
  eexists _, _. split; [exact Hbody |]. split_and!.
  - unfold get_tagged_resources, exec. by rewrite Hbody.
  - right. left.
  - apply grouped_spec, Hrs.
  - apply grouped_spec, Hrs.
Qed.

(** C8 as stated fails: one record whose identifier has no third field
    and the scanner returns nothing. *)
Lemma tag_index_drops_pages_on_short_identifier :
  get_tagged_resources
    {| client := λ _ _, inl (OtherException "");
       tagging_paginate := λ _,
         inr (pages_of [[ {| ResourceARN := "arn:aws:s3:::logs"; Tags := [] |};
                          {| ResourceARN := "i-0abc"; Tags := [] |} ]]) |}
    "us-east-1"
  = ([Print (MsgFetchingTagged "us-east-1");
      Print (MsgTaggedError "us-east-1" "list index out of range")],
     inr []).
Proof. reflexivity. Qed.

Lemma tag_index_returns_all_pages_grouped_witness :
  ∃ t, get_tagged_resources paged_boto3 "us-east-1"
       = (t, inr (concat three_pages)) ∧
       length (concat three_pages) = 237.
Proof.
  destruct (tag_index_returns_all_pages_grouped
              paged_boto3 "us-east-1" three_pages eq_refl)
    as (t & s' & _ & H & _).
  - refine (bool_decide_unpack _ _). vm_compute. exact I.
  - exists t. split; [exact H | reflexivity].
Defined.

(** The report of that run: 237 records, 137 under "s3" and 100 under
    "ec2". *)
Example three_pages_report :
  (get_tagged_resources paged_boto3 "us-east-1").1
  = [Print (MsgFetchingTagged "us-east-1");
     Print (MsgTaggedFound "us-east-1" 237 2);
     Print (MsgTaggedService "s3" "us-east-1" 137);
     Print (MsgTaggedService "ec2" "us-east-1" 100)].
Proof. vm_compute. reflexivity. Qed.

(** C5: no failure leaves a scanner.  The service scanner always returns
    its triple: a client that cannot be built gives an empty result and
    a diagnostic, an operation whose invocation fails leaves no entry,
    and an unexpected failure of an invocation is reported.  The
    tag-index scanner always returns a list: it is empty, with a
    diagnostic, when the index cannot be queried or a page cannot be
    fetched. *)
Theorem failures_stay_inside_scanners
    (boto3 : Boto3) (service_name region : string) :
  (∃ t res,
     discover_resources_for_service boto3 service_name region
       = (t, inr (service_name, region, res)) ∧
     (∀ e, client boto3 service_name region = inl e →
           res = ∅ ∧ Print (MsgInitError service_name region (str e)) ∈ t) ∧
     (∀ c op e, client boto3 service_name region = inr c →
                invoke c op = inl e → res !! op = None) ∧
     (∀ c names op msg,
        client boto3 service_name region = inr c →
        operation_names c = inr names → op ∈ names →
        listing_shaped op = true → is_skipped op = false →
        invoke c op = inl (OtherException msg) →
        Print (MsgOperationError service_name op region msg) ∈ t)) ∧
  (∃ t l,
     get_tagged_resources boto3 region = (t, inr l) ∧
     (∀ e, tagging_paginate boto3 region = inl e →
           l = [] ∧ Print (MsgTaggedError region (str e)) ∈ t) ∧
     (∀ pg e, tagging_paginate boto3 region = inr pg →
              page_error pg = Some e →
              l = [] ∧ Print (MsgTaggedError region (str e)) ∈ t)).
Proof.
  split.
  - destruct (client boto3 service_name region) as [e|c] eqn:Hc.
    + eexists _, _. split; [by apply discover_client_error |]. split_and!.
      * intros ? [= <-]. split; [done |]. right. left.
      * intros; discriminate.
      * intros; discriminate.
    + destruct (get_list_operations_total c) as (ops & Hops & Hnames).
      eexists _, _. split; [by eapply discover_client_ok |]. split_and!.
      * intros; discriminate.
      * intros ? op e [= <-] He. rewrite scan_fold_lookup, lookup_empty.
        unfold found. rewrite He.
        by destruct (decide (op ∈ ops)), (is_skipped op).
      * intros ? names op msg [= <-] Hn Hop Hl Hs He. right.
        apply elem_of_concat_fmap. exists op. split.
        -- rewrite (Hnames names Hn). by apply list_elem_of_In, filter_In,
             conj; [apply list_elem_of_In |].
        -- unfold operation_events. rewrite Hs, He. right. left.
  - destruct (tagging_paginate boto3 region) as [e|pg] eqn:Hpg.
    + eexists _, _. split; [by apply get_tagged_resources_unavailable |].
      split; [| intros; discriminate].
      intros ? [= <-]. split; [done |]. right. left.
    + destruct (page_error pg) as [e|] eqn:He.
      * eexists _, _.
        split; [by eapply get_tagged_resources_page_error |].
        split; [intros; discriminate |].
        intros ? e' [= <-] He'. rewrite He in He'. injection He' as <-.
        split; [done |]. right. left.
      * destruct (get_tagged_resources_total boto3 region) as (t & l & H).
        exists t, l. split; [done |]. split; [intros; discriminate |].
        intros ? e [= <-] He'. congruence.
Qed.

(** ** The region loop *)

Lemma as_completed_fmap {A B} (f : A → B) (order : list nat) (xs : list A) :
  as_completed order (f <$> xs) = f <$> as_completed order xs.
Proof.
  unfold as_completed. induction order as [|i order IH]; [done |].
  cbn [omap list_omap]. rewrite list_lookup_fmap.
  destruct (xs !! i); simpl; by rewrite IH.
Qed.

Lemma omap_lookup_seq {A} (pre xs : list A) :
  omap (λ i, (pre ++ xs) !! i) (seq (length pre) (length xs)) = xs.
Proof.
  revert pre. induction xs as [|x xs IH]; intros pre; [done |].
  cbn [length seq omap list_omap].
  rewrite list_lookup_middle by done.
  specialize (IH (pre ++ [x])).
  rewrite <- app_assoc, length_app in IH. cbn [length app] in IH.
  rewrite Nat.add_1_r in IH. by rewrite IH.
Qed.

(** Whatever the order in which they finish, the futures that come out
    are the futures that were submitted. *)
Lemma as_completed_perm {A} (order : list nat) (xs : list A) :
  completion_order (length xs) order → as_completed order xs ≡ₚ xs.
Proof.
  unfold completion_order, as_completed. intros ->.
  change (omap (λ i, ([] ++ xs) !! i) (seq (length (@nil A)) (length xs)) ≡ₚ xs).
  by rewrite omap_lookup_seq.
Qed.

Section Regions.
Context (boto3 : Boto3).

Lemma discover_scan region service_name :
  ∃ t, discover_resources_for_service boto3 service_name region
       = (t, inr (service_name, region, scan boto3 region service_name)).
Proof.
  destruct (discover_total boto3 service_name region) as (t & res & H).
  exists t. unfold scan. by rewrite H.
Qed.

Lemma get_tagged : ∀ region,
  ∃ t, get_tagged_resources boto3 region = (t, inr (tagged boto3 region)).
Proof.
  intros region.
  destruct (get_tagged_resources_total boto3 region) as (t & l & H).
  exists t. unfold tagged. by rewrite H.
Qed.

Lemma merged_lookup region svcs k :
  merged boto3 region svcs !! k
  = if decide (k ∈ svcs) then kept_scan boto3 region k else None.
Proof.
  unfold merged. rewrite (foldl_insert_lookup (kept_scan boto3 region)).
  rewrite lookup_empty. by destruct (decide (k ∈ svcs)), (kept_scan boto3 region k).
Qed.

Lemma merged_perm region svcs1 svcs2 :
  svcs1 ≡ₚ svcs2 → merged boto3 region svcs1 = merged boto3 region svcs2.
Proof.
  intros Hp. apply map_eq. intros k. rewrite !merged_lookup.
  destruct (decide (k ∈ svcs1)) as [H1|H1], (decide (k ∈ svcs2)) as [H2|H2];
    try done; exfalso; [apply H2; by rewrite <- Hp | apply H1; by rewrite Hp].
Qed.

Lemma merge_future_run region service_name (s : main_locals) :
  ∃ t, merge_future (discover_resources_for_service boto3 service_name region) s
       = (t, {| all_results := all_results s;
                region_resources :=
                  match kept_scan boto3 region service_name with
                  | Some res => <[service_name := res]> (region_resources s)
                  | None => region_resources s
                  end |}, inr tt).
Proof.
  destruct (discover_scan region service_name) as (t & H).
  exists t. unfold merge_future, kept_scan, mbind, M_bind, bind, call.
  rewrite H. cbn [fst snd]. destruct s as [ar rr].
  destruct (truthy (scan boto3 region service_name)); cbn; by rewrite ?app_nil_r.
Qed.

Lemma merge_loop region (svcs : list string) (s : main_locals) :
  ∃ t, for_each ((λ service, discover_resources_for_service boto3 service region)
                   <$> svcs) merge_future s
       = (t, {| all_results := all_results s;
                region_resources :=
                  foldl (λ m svc, match kept_scan boto3 region svc with
                                  | Some res => <[svc := res]> m
                                  | None => m
                                  end) (region_resources s) svcs |}, inr tt).
Proof.
  revert s. induction svcs as [|svc svcs IH]; intros s.
  - exists []. by destruct s.
  - destruct (merge_future_run region svc s) as (t & H).
    destruct (IH {| all_results := all_results s;
                    region_resources :=
                      match kept_scan boto3 region svc with
                      | Some res => <[svc := res]> (region_resources s)
                      | None => region_resources s
                      end |}) as (t' & H').
    exists (t ++ t'). cbn [fmap list_fmap for_each]. unfold bind.
    rewrite H. cbn [fmap list_fmap] in H'. by rewrite H'.
Qed.

(** One region, with a pool of at least one worker. *)
Lemma scan_region_run services threads order region (s : main_locals) :
  (0 < threads)%Z →
  ∃ t, scan_region boto3 services threads order region s
       = (t, {| all_results :=
                  {| metadata := metadata (all_results s);
                     resources_by_region :=
                       <[region := region_result boto3 services order region]>
                         (resources_by_region (all_results s)) |};
                region_resources := merged boto3 region (as_completed order services) |},
          inr tt).
Proof.
  intros Hthreads. destruct (get_tagged region) as (t1 & Htag).
  destruct (merge_loop region (as_completed order services)
              {| all_results := all_results s; region_resources := ∅ |})
    as (t2 & Hloop).
  rewrite <- as_completed_fmap in Hloop.
  exists (Print (MsgRegion region) :: t1 ++ Print (MsgDiscovering region) :: t2).
  unfold scan_region, ThreadPoolExecutor.
  rewrite (proj2 (Z.leb_gt _ _) Hthreads).
  unfold mbind, M_bind, bind, call, print, emit, modify, lift.
  rewrite Htag. cbn [fst snd]. rewrite Hloop. cbn.
  by rewrite !app_nil_r.
Qed.

(** The pool refuses to start without a worker. *)
Lemma scan_region_no_worker services threads order region (s : main_locals) :
  (threads ≤ 0)%Z →
  ∃ t s', scan_region boto3 services threads order region s
          = (t, s', inl (OtherException "max_workers must be greater than 0")).
Proof.
  intros Hthreads. destruct (get_tagged region) as (t1 & Htag).
  unfold scan_region, ThreadPoolExecutor.
  rewrite (proj2 (Z.leb_le _ _) Hthreads).
  unfold mbind, M_bind, bind, call, print, emit, modify, lift.
  rewrite Htag. cbn. by eauto.
Qed.

End Regions.

(** ** The snapshot *)

Section RegionsFold.
Context {V : Type} (val : nat → string → V).

Lemma fill_cons i r irs m :
  fill val m ((i, r) :: irs) = fill val (<[r := val i r]> m) irs.
Proof. reflexivity. Qed.

Lemma fill_lookup_Some irs m k v :
  fill val m irs !! k = Some v →
  (∃ i, (i, k) ∈ irs ∧ v = val i k) ∨ m !! k = Some v.
Proof.
  revert m. induction irs as [|[i r] irs IH]; intros m; [by right |].
  rewrite fill_cons. intros [(j & Hj & ->) | H]%IH.
  - left. exists j. split; [by right | done].
  - destruct (decide (r = k)) as [-> | Hne].
    + rewrite lookup_insert_eq in H. injection H as <-.
      left. exists i. split; [left | done].
    + rewrite lookup_insert_ne in H by done. by right.
Qed.

Lemma fill_lookup_is_Some irs m k :
  is_Some (fill val m irs !! k) ↔ k ∈ irs.*2 ∨ is_Some (m !! k).
Proof.
  revert m. induction irs as [|[i r] irs IH]; intros m.
  - cbn. split; [by right | by intros [?%elem_of_nil | ?]].
  - rewrite fill_cons, IH, fmap_cons, elem_of_cons. cbn [snd].
    destruct (decide (r = k)) as [-> | Hne].
    + rewrite lookup_insert_eq. split; [by left; left | by right].
    + rewrite lookup_insert_ne by done. split.
      * intros [? | ?]; [left; by right | by right].
      * intros [[? | ?] | ?]; [congruence | by left | by right].
Qed.

End RegionsFold.

Lemma fill_ext {V} (val1 val2 : nat → string → V) irs m :
  (∀ i r, val1 i r = val2 i r) → fill val1 m irs = fill val2 m irs.
Proof.
  intros H. revert m. induction irs as [|[i r] irs IH]; intros m; [done |].
  rewrite !fill_cons, H. apply IH.
Qed.

Lemma enumerate_snd {A} (xs : list A) : (enumerate xs).*2 = xs.
Proof. unfold enumerate. apply snd_zip. by rewrite length_seq. Qed.

Section Main.
Context (boto3 : Boto3) (stamp : string) (regions services : list string)
        (threads : Z) (schedule : nat → list nat).

Lemma regions_loop (irs : list (nat * string)) (s : main_locals) :
  (0 < threads)%Z →
  ∃ t rr,
    for_each irs
      (λ '(i, region), scan_region boto3 services threads (schedule i) region) s
    = (t, {| all_results :=
               {| metadata := metadata (all_results s);
                  resources_by_region :=
                    fill (λ i region, region_result boto3 services (schedule i) region)
                      (resources_by_region (all_results s)) irs |};
             region_resources := rr |}, inr tt).
Proof.
  intros Hthreads. revert s.
  induction irs as [|[i region] irs IH]; intros s.
  - exists [], (region_resources s). by destruct s as [[md rbr] rr].
  - destruct (scan_region_run boto3 services threads (schedule i) region s
                Hthreads) as (t & H).
    match type of H with _ = (_, ?s1, _) =>
      destruct (IH s1) as (t' & rr & H') end.
    exists (t ++ t'), rr. cbn [for_each]. unfold bind. by rewrite H, H'.
Qed.

(** With at least one worker, [main] returns the snapshot: one
    [region_result] stored per turn of the loop over the regions. *)
Lemma main_run :
  (0 < threads)%Z →
  ∃ t, main boto3 stamp regions services threads schedule
       = (t, inr {| metadata := {| timestamp := stamp;
                                   regions_scanned := regions;
                                   services_scanned := services |};
                    resources_by_region :=
                      fill (λ i region,
                              region_result boto3 services (schedule i) region)
                        ∅ (enumerate regions) |}).
Proof.
  intros Hthreads. unfold main, exec.
  match goal with |- context [(for_each ?irs ?body ≫= _) ?s] =>
    destruct (regions_loop irs s Hthreads) as (t & rr & H) end.
  exists t. unfold mbind, M_bind, bind, get, ret. rewrite H. cbn.
  by rewrite app_nil_r.
Qed.

End Main.

Lemma truthy_empty {V} : truthy (∅ : gmap string V) = false.
Proof. unfold truthy. by rewrite map_size_empty. Qed.

Lemma truthy_spec {V} (d : gmap string V) : truthy d = true ↔ d ≠ ∅.
Proof.
  unfold truthy. rewrite negb_true_iff, Nat.eqb_neq.
  apply map_size_non_empty_iff.
Qed.

(** C4: with a pool of at least one worker [main] returns a snapshot in
    which a service is a key of a region's [all_resources] only with the
    non-empty result of its scan for that region; a service whose scan
    of the region is empty is not a key. *)
Theorem region_result_drops_empty_services
    (boto3 : Boto3) (stamp : string) (regions services : list string)
    (threads : Z) (schedule : nat → list nat) :
  (0 < threads)%Z →
  ∃ t snap,
    main boto3 stamp regions services threads schedule = (t, inr snap) ∧
    ∀ region rr, resources_by_region snap !! region = Some rr →
      ∀ svc,
        (∀ res, all_resources rr !! svc = Some res →
           res ≠ ∅ ∧
           ∃ t', discover_resources_for_service boto3 svc region
                 = (t', inr (svc, region, res))) ∧
        (∀ t', discover_resources_for_service boto3 svc region
                 = (t', inr (svc, region, ∅)) →
               all_resources rr !! svc = None).
Proof.
  intros Hthreads.
  destruct (main_run boto3 stamp regions services threads schedule Hthreads)
    as (t & Hmain).
  eexists _, _. split; [exact Hmain |]. cbn [resources_by_region].
  intros region rr [(i & _ & ->) | H]%fill_lookup_Some;
    [| by rewrite lookup_empty in H].
  intros svc. cbn [region_result all_resources]. rewrite merged_lookup.
  unfold kept_scan. split.
  - intros res Hres.
    destruct (decide (svc ∈ as_completed (schedule i) services)); [| done].
    destruct (truthy (scan boto3 region svc)) eqn:Ht; [| done].
    injection Hres as <-. split; [by apply truthy_spec |].
    apply discover_scan.
  - intros t' Hd. assert (scan boto3 region svc = ∅) as ->.
    { unfold scan. by rewrite Hd. }
    rewrite truthy_empty. by destruct (decide _).
Qed.

(** C10: with a pool of at least one worker [main] returns a snapshot
    whose [resources_by_region] has an entry for a region exactly when
    the region is in the list of regions scanned, whatever the scans
    found. *)
Theorem every_scanned_region_has_an_entry
    (boto3 : Boto3) (stamp : string) (regions services : list string)
    (threads : Z) (schedule : nat → list nat) :
  (0 < threads)%Z →
  ∃ t snap,
    main boto3 stamp regions services threads schedule = (t, inr snap) ∧
    regions_scanned (metadata snap) = regions ∧
    ∀ region,
      is_Some (resources_by_region snap !! region) ↔ region ∈ regions.
Proof.
  intros Hthreads.
  destruct (main_run boto3 stamp regions services threads schedule Hthreads)
    as (t & Hmain).
  eexists _, _. split; [exact Hmain |]. split; [done |].
  cbn [resources_by_region].
  intros region. rewrite fill_lookup_is_Some, enumerate_snd, lookup_empty.
  split; [intros [? | [? ?]]; done | by left].
Qed.

(** C7: for one environment, a run with one worker and a run with ten
    workers return the same snapshot, whatever the orders in which the
    futures of each region finish in the two runs. *)
Theorem pool_size_keeps_snapshot
    (boto3 : Boto3) (stamp : string) (regions services : list string)
    (schedule1 schedule10 : nat → list nat) :
  (∀ i, completion_order (length services) (schedule1 i)) →
  (∀ i, completion_order (length services) (schedule10 i)) →
  ∃ t1 t10 snap,
    main boto3 stamp regions services 1 schedule1 = (t1, inr snap) ∧
    main boto3 stamp regions services 10 schedule10 = (t10, inr snap).
Proof.
  intros H1 H10.
  destruct (main_run boto3 stamp regions services 1 schedule1) as (t1 & Hm1);
    [done |].
  destruct (main_run boto3 stamp regions services 10 schedule10) as (t10 & Hm10);
    [done |].
  eexists t1, t10, _. split; [exact Hm1 |]. rewrite Hm10. do 3 f_equal.
  apply fill_ext. intros i region. unfold region_result. f_equal.
  apply merged_perm. by rewrite !as_completed_perm.
Qed.

Lemma region_result_drops_empty_services_witness :
  ∃ t snap,
    main sample_boto3 "2024-01-01_00-00-00" ["us-east-1"; "eu-west-1"]
      ["storage"; "quiet"; "ghost"] 10 (λ _, [2; 0; 1]) = (t, inr snap) ∧
    ∀ region rr, resources_by_region snap !! region = Some rr →
      ∀ svc,
        (∀ res, all_resources rr !! svc = Some res →
           res ≠ ∅ ∧
           ∃ t', discover_resources_for_service sample_boto3 svc region
                 = (t', inr (svc, region, res))) ∧
        (∀ t', discover_resources_for_service sample_boto3 svc region
                 = (t', inr (svc, region, ∅)) →
               all_resources rr !! svc = None).
Proof.
  apply (region_result_drops_empty_services sample_boto3
           "2024-01-01_00-00-00" ["us-east-1"; "eu-west-1"]
           ["storage"; "quiet"; "ghost"] 10 (λ _, [2; 0; 1])).
  reflexivity.
Defined.

Lemma every_scanned_region_has_an_entry_witness :
  ∃ t snap,
    main refusing_boto3 "2024-01-01_00-00-00" ["us-east-1"; "eu-west-1"]
      ["dynamodb"] 4 (λ _, [0]) = (t, inr snap) ∧
    regions_scanned (metadata snap) = ["us-east-1"; "eu-west-1"] ∧
    ∀ region,
      is_Some (resources_by_region snap !! region) ↔
        region ∈ ["us-east-1"; "eu-west-1"].
Proof.
  apply (every_scanned_region_has_an_entry refusing_boto3
           "2024-01-01_00-00-00" ["us-east-1"; "eu-west-1"] ["dynamodb"] 4
           (λ _, [0])).
  reflexivity.
Defined.

Lemma pool_size_keeps_snapshot_witness :
  ∃ t1 t10 snap,
    main sample_boto3 "2024-01-01_00-00-00" ["us-east-1"; "eu-west-1"]
      ["storage"; "quiet"; "ghost"] 1 (λ _, [0; 1; 2]) = (t1, inr snap) ∧
    main sample_boto3 "2024-01-01_00-00-00" ["us-east-1"; "eu-west-1"]
      ["storage"; "quiet"; "ghost"] 10 (λ _, [2; 0; 1]) = (t10, inr snap).
Proof.
  apply (pool_size_keeps_snapshot sample_boto3 "2024-01-01_00-00-00"
           ["us-east-1"; "eu-west-1"] ["storage"; "quiet"; "ghost"]
           (λ _, [0; 1; 2]) (λ _, [2; 0; 1])).
  - intros _. unfold completion_order. reflexivity.
  - intros _. unfold completion_order.
    apply (Permutation_cons_app (l := [0; 1]) [0; 1] [] 2). reflexivity.
Defined.

(** ** Runs on the sample environments *)

(** A response with a list and a token: the token is dropped. *)
Example extractor_keeps_items :
  filtered_response
    {[ "Items" := VList [VInt 1; VInt 2; VInt 3]; "NextToken" := VStr "x" ]}
  = {[ "Items" := VList [VInt 1; VInt 2; VInt 3] ]}.
Proof. vm_compute. reflexivity. Qed.

(** A field kept for its name alone. *)
Example extractor_keeps_named_scalar :
  filtered_response {[ "TableNames" := VList []; "Count" := VInt 0 ]}
  = {[ "TableNames" := VList [] ]}.
Proof. vm_compute. reflexivity. Qed.

(** The scan of "storage": [list_buckets] is passed over, the refusal of
    [describe_things] is silent. *)
Example storage_scan :
  discover_resources_for_service sample_boto3 "storage" "us-east-1"
  = ([Print (MsgScanning "storage" "us-east-1");
      Invoke "storage" "us-east-1" "list_items";
      Print (MsgFound "storage" "list_items" "us-east-1" 3);
      Invoke "storage" "us-east-1" "describe_things"],
     inr ("storage", "us-east-1",
          {[ "list_items" := {[ "Items" := VList [VInt 1; VInt 2; VInt 3] ]} ]})).
Proof. vm_compute. reflexivity. Qed.

(** A service without an endpoint: a diagnostic and nothing found. *)
Example ghost_scan :
  discover_resources_for_service sample_boto3 "ghost" "us-east-1"
  = ([Print (MsgScanning "ghost" "us-east-1");
      Print (MsgInitError "ghost" "us-east-1" "no endpoint")],
     inr ("ghost", "us-east-1", ∅)).
Proof. vm_compute. reflexivity. Qed.

(** The snapshot of a run over two regions and three services: only
    "storage" is a key of [all_resources]. *)
Example sample_snapshot :
  (main sample_boto3 "2024-01-01_00-00-00" ["us-east-1"; "eu-west-1"]
     ["storage"; "quiet"; "ghost"] 10 (λ _, [2; 0; 1])).2
  = inr {| metadata :=
             {| timestamp := "2024-01-01_00-00-00";
                regions_scanned := ["us-east-1"; "eu-west-1"];
                services_scanned := ["storage"; "quiet"; "ghost"] |};
           resources_by_region :=
             let found_there :=
               {| tagged_resources :=
                    [ResourceARN s3_record; ResourceARN ec2_record];
                  all_resources :=
                    {[ "storage" :=
                         {[ "list_items" :=
                              {[ "Items" := VList [VInt 1; VInt 2; VInt 3] ]} ]} ]} |} in
             {[ "us-east-1" := found_there; "eu-west-1" := found_there ]} |}.
Proof. vm_compute. reflexivity. Qed.

(** A region where nothing is found keeps its entry. *)
Example empty_region_snapshot :
  (main refusing_boto3 "2024-01-01_00-00-00" ["us-east-1"] ["dynamodb"] 4
     (λ _, [0])).2
  = inr {| metadata :=
             {| timestamp := "2024-01-01_00-00-00";
                regions_scanned := ["us-east-1"];
                services_scanned := ["dynamodb"] |};
           resources_by_region :=
             {[ "us-east-1" :=
                  {| tagged_resources := []; all_resources := ∅ |} ]} |}.
Proof. vm_compute. reflexivity. Qed.

(** A pool without workers: the first region ends the run. *)
Example no_worker_run :
  (main refusing_boto3 "2024-01-01_00-00-00" ["us-east-1"] ["dynamodb"] 0
     (λ _, [0])).2
  = inl (OtherException "max_workers must be greater than 0").
Proof. vm_compute. reflexivity. Qed.

(** * Further properties *)

(** ** The service scanner, entry by entry *)

(** X1: on a client whose operation names can be read, an operation is
    a key of the scan result exactly when it is one of the names, passes
    the naming test, is not on the skip list and its invocation returns
    a response from which something is extracted; the bag stored is what
    the extractor gives for that response. *)
Theorem scan_result_entries
    (boto3 : Boto3) (service_name region : string) (c : Client)
    (names : list string) :
  client boto3 service_name region = inr c →
  operation_names c = inr names →
  ∃ t res,
    discover_resources_for_service boto3 service_name region
      = (t, inr (service_name, region, res)) ∧
    ∀ op bag,
      res !! op = Some bag ↔
        op ∈ names ∧ listing_shaped op = true ∧ is_skipped op = false ∧
        ∃ response, invoke c op = inr response ∧
                    bag = filtered_response response ∧ bag ≠ ∅.
Proof.
  intros Hc Hn.
  destruct (get_list_operations_total c) as (ops & Hops & Hnames).
  specialize (Hnames names Hn). subst ops.
  eexists _, _. split; [by eapply discover_client_ok |].
  intros op bag. rewrite scan_fold_lookup, lookup_empty. unfold found.
  split.
  - destruct (decide (op ∈ List.filter listing_shaped names)) as [Hin|];
      [| done].
    apply list_elem_of_In, filter_In in Hin as [Hin Hl].
    apply list_elem_of_In in Hin.
    destruct (is_skipped op); [done |].
    destruct (invoke c op) as [e|response]; [done |].
    destruct (truthy (filtered_response response)) eqn:Ht; [| done].
    intros [= <-]. split_and!; try done.
    exists response. split_and!; try done. by apply truthy_spec.
  - intros (Hin & Hl & Hs & response & Hi & -> & Hne).
    rewrite decide_True
      by by apply list_elem_of_In, filter_In, conj; [apply list_elem_of_In |].
    rewrite Hs, Hi. by rewrite (proj2 (truthy_spec _) Hne).
Qed.

Lemma scan_result_entries_witness :
  ∃ t res,
    discover_resources_for_service flaky_boto3 "inventory" "us-east-1"
      = (t, inr ("inventory", "us-east-1", res)) ∧
    ∀ op bag,
      res !! op = Some bag ↔
        op ∈ ["list_items"; "describe_things"; "delete_item"; "list_documents";
              "get_all_widgets"] ∧
        listing_shaped op = true ∧ is_skipped op = false ∧
        ∃ response, invoke flaky_client op = inr response ∧
                    bag = filtered_response response ∧ bag ≠ ∅.
Proof.
  apply (scan_result_entries flaky_boto3 "inventory" "us-east-1" flaky_client);
    reflexivity.
Defined.

Lemma invocations_app t1 t2 :
  invocations (t1 ++ t2) = invocations t1 ++ invocations t2.
Proof. apply omap_app. Qed.

Lemma invocations_operation_events c service_name region op :
  invocations (operation_events c service_name region op)
  = if is_skipped op then [] else [(service_name, region, op)].
Proof.
  unfold operation_events. destruct (is_skipped op); [done |].
  destruct (invoke c op) as [[]|response]; try done.
  by destruct (truthy (filtered_response response)).
Qed.

Lemma invocations_scan_loop c service_name region (ops : list string) :
  invocations (concat (operation_events c service_name region <$> ops))
  = (λ op, (service_name, region, op))
      <$> List.filter (λ op, negb (is_skipped op)) ops.
Proof.
  induction ops as [|op ops IH]; [done |].
  rewrite fmap_cons. cbn [concat List.filter].
  rewrite invocations_app, invocations_operation_events, IH.
  by destruct (is_skipped op).
Qed.

(** X2: on a client whose operation names can be read, the scanner
    invokes the operations that pass the naming test and are not on the
    skip list, each occurrence once and in the order of the names,
    whatever the earlier invocations returned: no operation is retried
    and none is left out after a failure. *)
Theorem scanner_invokes_each_classified_operation_once
    (boto3 : Boto3) (service_name region : string) (c : Client)
    (names : list string) :
  client boto3 service_name region = inr c →
  operation_names c = inr names →
  ∃ t res,
    discover_resources_for_service boto3 service_name region
      = (t, inr (service_name, region, res)) ∧
    invocations t
    = (λ op, (service_name, region, op))
        <$> List.filter (λ op, negb (is_skipped op))
              (List.filter listing_shaped names).
Proof.
  intros Hc Hn.
  destruct (get_list_operations_total c) as (ops & Hops & Hnames).
  specialize (Hnames names Hn). subst ops.
  eexists _, _. split; [by eapply discover_client_ok |].
  cbn [invocations omap list_omap]. apply invocations_scan_loop.
Qed.

Lemma scanner_invokes_each_classified_operation_once_witness :
  ∃ t res,
    discover_resources_for_service flaky_boto3 "inventory" "us-east-1"
      = (t, inr ("inventory", "us-east-1", res)) ∧
    invocations t
    = [("inventory", "us-east-1", "list_items");
       ("inventory", "us-east-1", "describe_things");
       ("inventory", "us-east-1", "get_all_widgets")].
Proof.
  exact (scanner_invokes_each_classified_operation_once
           flaky_boto3 "inventory" "us-east-1" flaky_client
           ["list_items"; "describe_things"; "delete_item"; "list_documents";
            "get_all_widgets"] eq_refl eq_refl).
Defined.

Lemma operation_events_invoke_inv c service_name region operation s r op :
  Invoke s r op ∈ operation_events c service_name region operation →
  s = service_name ∧ r = region ∧ op = operation ∧ is_skipped op = false.
Proof.
  unfold operation_events. destruct (is_skipped operation) eqn:Hs.
  - by intros ?%elem_of_nil.
  - intros [[= -> -> ->] | H]%elem_of_cons; [done |].
    destruct (invoke c operation) as [[]|response];
      try destruct (truthy _);
      repeat (apply elem_of_cons in H as [? | H]; [done |]);
      by apply elem_of_nil in H.
Qed.

Lemma classified_listing_shaped (c : Client) (ops : list string) op :
  get_list_operations c = ([], inr ops) → op ∈ ops → listing_shaped op = true.
Proof.
  destruct c as [[e|names] inv].
  - rewrite get_list_operations_inl. intros [= <-]. by intros ?%elem_of_nil.
  - rewrite get_list_operations_inr. intros [= <-].
    by intros [_ ?]%list_elem_of_In%filter_In.
Qed.

(** X3: whatever the environment, every operation the scanner invokes
    is invoked on its own service and region, is not on the skip list,
    and has a lower-cased name that starts with "list", "describe" or
    "get": an operation named like a write is never called. *)
Theorem scanner_only_invokes_read_shaped_operations
    (boto3 : Boto3) (service_name region : string) :
  ∃ t res,
    discover_resources_for_service boto3 service_name region
      = (t, inr (service_name, region, res)) ∧
    ∀ s r op, Invoke s r op ∈ t →
      s = service_name ∧ r = region ∧ (op ∉ skipped_operations) ∧
      (starts_with (lower op) "list" ∨ starts_with (lower op) "describe" ∨
       starts_with (lower op) "get").
Proof.
  destruct (client boto3 service_name region) as [e|c] eqn:Hc.
  - eexists _, _. split; [by apply discover_client_error |].
    intros s r op [?|[?|?%elem_of_nil]%elem_of_cons]%elem_of_cons; done.
  - destruct (get_list_operations_total c) as (ops & Hops & Hnames).
    eexists _, _. split; [by eapply discover_client_ok |].
    intros s r op [? | H]%elem_of_cons; [done |].
    apply elem_of_concat_fmap in H as (operation & Hop & H).
    apply operation_events_invoke_inv in H as (-> & -> & -> & Hs).
    split_and!; try done.
    + intros Hin. unfold is_skipped in Hs.
      by rewrite bool_decide_eq_true_2 in Hs.
    + apply (classified_listing_shaped c ops) in Hop; [| done].
      apply listing_shaped_spec in Hop. tauto.
Qed.

Lemma errors_operation_events c service_name region op :
  List.filter is_error_event (operation_events c service_name region op)
  = option_list (operation_diagnostic c service_name region op).
Proof.
  unfold operation_events, operation_diagnostic.
  destruct (is_skipped op); [done |].
  destruct (invoke c op) as [[]|response]; try done.
  by destruct (truthy (filtered_response response)).
Qed.

Lemma errors_scan_loop c service_name region (ops : list string) :
  List.filter is_error_event
    (concat (operation_events c service_name region <$> ops))
  = omap (operation_diagnostic c service_name region) ops.
Proof.
  induction ops as [|op ops IH]; [done |].
  rewrite fmap_cons. cbn [concat omap list_omap].
  rewrite List.filter_app, errors_operation_events, IH.
  by destruct (operation_diagnostic c service_name region op).
Qed.

(** X4: when the client can be built, the error diagnostics of a scan
    are, in order, one line for each invocation that fails with an
    exception other than the three expected classes; a failure to read
    the operation names is not reported at all and leaves an empty
    result. *)
Theorem scanner_reports_unexpected_failures_only
    (boto3 : Boto3) (service_name region : string) (c : Client) :
  client boto3 service_name region = inr c →
  ∃ t res ops,
    discover_resources_for_service boto3 service_name region
      = (t, inr (service_name, region, res)) ∧
    get_list_operations c = ([], inr ops) ∧
    List.filter is_error_event t
    = omap (operation_diagnostic c service_name region) ops ∧
    ∀ e, operation_names c = inl e →
         t = [Print (MsgScanning service_name region)] ∧ res = ∅.
Proof.
  intros Hc.
  destruct (get_list_operations_total c) as (ops & Hops & Hnames).
  eexists _, _, ops. split; [by eapply discover_client_ok |].
  split; [done |]. split.
  - cbn [List.filter is_error_event is_error_message]. apply errors_scan_loop.
  - intros e He. destruct c as [on inv]. simpl in He. subst on.
    rewrite get_list_operations_inl in Hops. by injection Hops as <-.
Qed.

Lemma scanner_reports_unexpected_failures_only_witness :
  ∃ t res ops,
    discover_resources_for_service flaky_boto3 "inventory" "us-east-1"
      = (t, inr ("inventory", "us-east-1", res)) ∧
    get_list_operations flaky_client = ([], inr ops) ∧
    List.filter is_error_event t
    = omap (operation_diagnostic flaky_client "inventory" "us-east-1") ops ∧
    ∀ e, operation_names flaky_client = inl e →
         t = [Print (MsgScanning "inventory" "us-east-1")] ∧ res = ∅.
Proof.
  apply (scanner_reports_unexpected_failures_only
           flaky_boto3 "inventory" "us-east-1" flaky_client).
  reflexivity.
Defined.

(** The diagnostics of that scan: the time-out is reported, the denial
    is not. *)
Example flaky_scan_diagnostics :
  List.filter is_error_event
    (discover_resources_for_service flaky_boto3 "inventory" "us-east-1").1
  = [Print (MsgOperationError "inventory" "describe_things" "us-east-1"
              "read timeout")].
Proof. vm_compute. reflexivity. Qed.

(** ** The extractor as an operation on responses *)

(** X5: extracting from a bag gives the bag back, and the extractor
    treats each field on its own: adding or replacing a field of the
    response adds it to the bag when the field passes the test of lines
    87-89, and removes it from the bag otherwise. *)
Theorem extractor_idempotent_fieldwise (response : gmap string value) :
  filtered_response (filtered_response response) = filtered_response response ∧
  ∀ key v,
    filtered_response (<[key := v]> response)
    = if kept key v
      then <[key := v]> (filtered_response response)
      else delete key (filtered_response response).
Proof.
  split.
  - apply map_eq. intros k. rewrite !filtered_response_lookup.
    destruct (response !! k) as [w|]; [| done].
    destruct (kept k w) eqn:Hk; [by rewrite Hk | done].
  - intros key v. apply map_eq. intros k.
    rewrite filtered_response_lookup.
    destruct (decide (key = k)) as [-> | Hne].
    + rewrite lookup_insert_eq. destruct (kept k v).
      * by rewrite lookup_insert_eq.
      * by rewrite lookup_delete_eq.
    + rewrite lookup_insert_ne by done. destruct (kept key v).
      * by rewrite lookup_insert_ne, filtered_response_lookup.
      * by rewrite lookup_delete_ne, filtered_response_lookup.
Qed.

(** ** The tag-index scanner: all or nothing, and its report *)

Lemma group_resource_raises r (s : tag_locals) :
  split ":"%char (ResourceARN r) !! 2%nat = None →
  group_resource r s = ([], s, inl (OtherException "list index out of range")).
Proof.
  intros Hs. unfold group_resource, service_segment. rewrite Hs. done.
Qed.

Lemma group_loop_raises (rs : list TagMapping) (s : tag_locals) :
  ¬ Forall (λ r, is_Some (split ":"%char (ResourceARN r) !! 2%nat)) rs →
  ∃ s', for_each rs group_resource s
        = ([], s', inl (OtherException "list index out of range")).
Proof.
  revert s. induction rs as [|r rs IH]; intros s Hrs.
  - destruct Hrs. constructor.
  - cbn [for_each]. unfold bind.
    destruct (split ":"%char (ResourceARN r) !! 2%nat) as [service|] eqn:Hs.
    + rewrite group_resource_run by (rewrite Hs; eauto).
      destruct (IH {| resources := resources s;
                      by_service := group_record (by_service s) r |})
        as (s' & ->).
      * intros H. apply Hrs. constructor; [rewrite Hs; eauto | done].
      * by eauto.
    + rewrite group_resource_raises by done. by eauto.
Qed.

Lemma errors_report_lines region (bs : by_service_t) :
  List.filter is_error_event
    ((λ kv, Print (MsgTaggedService kv.1 region (length kv.2))) <$> bs) = [].
Proof. induction bs as [|kv bs IH]; [done | by rewrite fmap_cons]. Qed.

(** X6: the tag-index scanner returns all the records of all the pages
    or none at all.  It returns them all, without an error diagnostic,
    when the paginator ends normally and every identifier has a third
    colon-delimited field.  In every other case, and only then, the
    records already read are dropped: the result is empty and the trace
    is the progress line followed by one error line, which carries the
    text of the exception of the client or of the page that failed, or
    of the index error of the first short identifier. *)
Theorem tag_index_all_or_nothing (boto3 : Boto3) (region : string) :
  ∃ t l,
    get_tagged_resources boto3 region = (t, inr l) ∧
    ((∃ pg,
        tagging_paginate boto3 region = inr pg ∧ page_error pg = None ∧
        Forall (λ r, is_Some (split ":"%char (ResourceARN r) !! 2%nat))
          (page_records pg) ∧
        l = page_records pg ∧ List.filter is_error_event t = []) ∨
     (l = [] ∧
      ∃ msg,
        t = [Print (MsgFetchingTagged region);
             Print (MsgTaggedError region msg)] ∧
        ((∃ e, tagging_paginate boto3 region = inl e ∧ msg = str e) ∨
         (∃ pg,
            tagging_paginate boto3 region = inr pg ∧
            ((∃ e, page_error pg = Some e ∧ msg = str e) ∨
             (page_error pg = None ∧
              Exists (λ r, split ":"%char (ResourceARN r) !! 2%nat = None)
                (page_records pg) ∧
              msg = "list index out of range")))))).
Proof.
  destruct (tagging_paginate boto3 region) as [e|pg] eqn:Hpg.
  { eexists _, _. split; [by apply get_tagged_resources_unavailable |].
    right. split; [done |]. eexists. split; [done |]. left. by eauto. }
  destruct (page_error pg) as [e|] eqn:He.
  { eexists _, _. split; [by eapply get_tagged_resources_page_error |].
    right. split; [done |]. eexists. split; [done |]. right. exists pg.
    split; [done |]. left. by eauto. }
  destruct (decide (Forall (λ r, is_Some (split ":"%char (ResourceARN r) !! 2%nat))
                      (page_records pg))) as [Hrs | Hrs].
  - pose proof (get_tagged_resources_body_ok boto3 region pg Hpg He Hrs) as Hb.
    cbv zeta in Hb. eexists _, _. split.
    { unfold get_tagged_resources, exec. by rewrite Hb. }
    left. exists pg. split_and!; try done.
    cbn [List.filter is_error_event is_error_message].
    apply errors_report_lines.
  - destruct (group_loop_raises (page_records pg)
                {| resources := page_records pg; by_service := [] |} Hrs)
      as (s' & Hloop).
    eexists _, _. split.
    { unfold get_tagged_resources, exec, get_tagged_resources_body,
        get_tagged_resources_try, try_except, initial_tag_locals.
      unfold mbind, M_bind, bind, lift, print, emit, get. simpl.
      rewrite Hpg, for_pages_run, He. simpl. rewrite Hloop. simpl. done. }
    right. split; [done |]. eexists. split; [done |]. right. exists pg.
    split; [done |]. right. split; [done |]. split; [| done].
    apply not_Forall_Exists in Hrs; [| apply _].
    eapply Exists_impl; [exact Hrs |]. intros r Hr.
    by apply eq_None_not_Some.
Qed.

Lemma append_arn_absent service arn (B : by_service_t) :
  service ∉ B.*1 → append_arn service arn B = B.
Proof.
  unfold append_arn. induction B as [|[k l] B IH]; [done |].
  rewrite fmap_cons. intros [Hk HB]%not_elem_of_cons. cbn [fst] in Hk.
  rewrite fmap_cons, IH by done. cbn [fst snd].
  rewrite bool_decide_eq_false_2; [done | congruence].
Qed.

Lemma sum_append_arn service arn (B : by_service_t) :
  NoDup B.*1 → service ∈ B.*1 →
  sum_list_with (λ kv, length kv.2) (append_arn service arn B)
  = S (sum_list_with (λ kv, length kv.2) B).
Proof.
  induction B as [|[k l] B IH]; [by intros _ ?%elem_of_nil |].
  rewrite fmap_cons. cbn [fst]. intros [Hk Hnd]%NoDup_cons Hin.
  destruct (decide (k = service)) as [-> | Hne].
  - change (append_arn service arn ((service, l) :: B))
      with ((if bool_decide (service = service)
             then (service, l ++ [arn]) else (service, l))
            :: append_arn service arn B).
    rewrite bool_decide_eq_true_2 by done.
    rewrite append_arn_absent by done.
    cbn [sum_list_with snd]. rewrite length_app. cbn [length]. lia.
  - apply elem_of_cons in Hin as [-> | Hin]; [done |].
    change (append_arn service arn ((k, l) :: B))
      with ((if bool_decide (k = service)
             then (k, l ++ [arn]) else (k, l))
            :: append_arn service arn B).
    rewrite bool_decide_eq_false_2 by done.
    cbn [sum_list_with snd]. rewrite IH by done. lia.
Qed.

(** Every record goes to exactly one group. *)
Lemma grouped_total (rs : list TagMapping) :
  Forall (λ r, is_Some (split ":"%char (ResourceARN r) !! 2%nat)) rs →
  sum_list_with (λ kv, length kv.2) (foldl group_record [] rs) = length rs.
Proof.
  induction rs as [|r rs IH] using rev_ind; intros Hrs; [done |].
  apply Forall_app in Hrs as [Hrs [[s0 Hs0] _]%Forall_cons].
  destruct (grouped_spec rs Hrs) as [Hnd _]. specialize (IH Hrs).
  rewrite foldl_snoc, length_app. cbn [length].
  set (G := foldl group_record [] rs) in *.
  unfold group_record. rewrite Hs0. unfold group_step, has_key.
  case_bool_decide as Hk.
  - rewrite sum_append_arn by done. lia.
  - rewrite sum_append_arn.
    + rewrite sum_list_with_app. cbn. lia.
    + rewrite fmap_app. apply NoDup_app. split_and!; [done | | apply NoDup_singleton].
      intros x Hx ->%list_elem_of_singleton. done.
    + rewrite fmap_app. apply elem_of_app. right. by left.
Qed.

Lemma service_counts_report region (bs : by_service_t) :
  service_counts ((λ kv, Print (MsgTaggedService kv.1 region (length kv.2))) <$> bs)
  = (λ kv, length kv.2) <$> bs.
Proof.
  induction bs as [|kv bs IH]; [done |].
  rewrite !fmap_cons. cbn [service_counts omap list_omap].
  fold (service_counts
          ((λ kv, Print (MsgTaggedService kv.1 region (length kv.2))) <$> bs)).
  by rewrite IH.
Qed.

(** X7: in the report of a tag-index scan that succeeds, the counts of
    the per-service lines add up to the number of records returned, which
    is the number the summary line gives: every record is counted under
    exactly one service. *)
Theorem tag_report_counts_add_up
    (boto3 : Boto3) (region : string) (ps : list (list TagMapping)) :
  tagging_paginate boto3 region = inr (pages_of ps) →
  Forall (λ r, is_Some (split ":"%char (ResourceARN r) !! 2%nat)) (concat ps) →
  ∃ t n_services,
    get_tagged_resources boto3 region = (t, inr (concat ps)) ∧
    Print (MsgTaggedFound region (length (concat ps)) n_services) ∈ t ∧
    length (service_counts t) = n_services ∧
    sum_list (service_counts t) = length (concat ps).
Proof.
  intros Hpg Hrs.
  pose proof (get_tagged_resources_body_ok boto3 region (pages_of ps) Hpg
                (page_error_of ps)) as Hb.
  rewrite page_records_of in Hb. specialize (Hb Hrs). cbv zeta in Hb.
  eexists _, _. split.
  { unfold get_tagged_resources, exec. by rewrite Hb. }
  split; [right; left |].
  cbn [service_counts omap list_omap].
  fold (service_counts
          ((λ kv, Print (MsgTaggedService kv.1 region (length kv.2)))
             <$> foldl group_record [] (concat ps))).
  rewrite service_counts_report. split; [by rewrite length_fmap |].
  rewrite <- (grouped_total (concat ps) Hrs).
  generalize (foldl group_record [] (concat ps)) as bs.
  induction bs as [|kv bs IH]; [done |].
  rewrite fmap_cons. cbn [sum_list sum_list_with]. by rewrite IH.
Qed.

Lemma tag_report_counts_add_up_witness :
  ∃ t n_services,
    get_tagged_resources paged_boto3 "us-east-1"
      = (t, inr (concat three_pages)) ∧
    Print (MsgTaggedFound "us-east-1" (length (concat three_pages)) n_services)
      ∈ t ∧
    length (service_counts t) = n_services ∧
    sum_list (service_counts t) = length (concat three_pages).
Proof.
  apply (tag_report_counts_add_up paged_boto3 "us-east-1" three_pages eq_refl).
  refine (bool_decide_unpack _ _). vm_compute. exact I.
Defined.

(** ** The region loop: what it stores and what it shows *)

(** X8: with a pool of at least one worker, when every future of every
    region finishes, the entry of a region of the list holds the
    identifiers of the records of its tag-index scan, in order, and
    under [all_resources] exactly the services of the list whose scan of
    the region is not empty, each with the result of that scan: no
    finding is lost in the merge. *)
Theorem snapshot_entry_keeps_every_finding
    (boto3 : Boto3) (stamp : string) (regions services : list string)
    (threads : Z) (schedule : nat → list nat) :
  (0 < threads)%Z →
  (∀ i, completion_order (length services) (schedule i)) →
  ∃ t snap,
    main boto3 stamp regions services threads schedule = (t, inr snap) ∧
    ∀ region, region ∈ regions →
      ∃ rr t_tag l,
        resources_by_region snap !! region = Some rr ∧
        get_tagged_resources boto3 region = (t_tag, inr l) ∧
        tagged_resources rr = ResourceARN <$> l ∧
        ∀ svc res,
          all_resources rr !! svc = Some res ↔
            svc ∈ services ∧ res ≠ ∅ ∧
            ∃ t', discover_resources_for_service boto3 svc region
                  = (t', inr (svc, region, res)).
Proof.
  intros Hthreads Hsched.
  destruct (main_run boto3 stamp regions services threads schedule Hthreads)
    as (t & Hmain).
  eexists _, _. split; [exact Hmain |]. cbn [resources_by_region].
  intros region Hregion.
  assert (is_Some (fill (λ i region, region_result boto3 services (schedule i) region)
                     ∅ (enumerate regions) !! region)) as [rr Hrr].
  { apply fill_lookup_is_Some. left. by rewrite enumerate_snd. }
  destruct (get_tagged boto3 region) as (t_tag & Htag).
  exists rr, t_tag, (tagged boto3 region). split; [done |]. split; [done |].
  apply fill_lookup_Some in Hrr as [(i & _ & ->) | Hrr];
    [| by rewrite lookup_empty in Hrr].
  split; [done |]. intros svc res.
  cbn [region_result all_resources]. rewrite merged_lookup. unfold kept_scan.
  assert (svc ∈ as_completed (schedule i) services ↔ svc ∈ services) as Hin
    by by rewrite as_completed_perm.
  split.
  - destruct (decide (svc ∈ as_completed (schedule i) services)) as [Hs|];
      [| done].
    destruct (truthy (scan boto3 region svc)) eqn:Ht; [| done].
    intros [= <-]. split; [by apply Hin |]. split; [by apply truthy_spec |].
    apply discover_scan.
  - intros (Hs & Hne & t' & Hd).
    assert (scan boto3 region svc = res) as -> by (unfold scan; by rewrite Hd).
    rewrite decide_True by by apply Hin.
    by rewrite (proj2 (truthy_spec _) Hne).
Qed.

Lemma snapshot_entry_keeps_every_finding_witness :
  ∃ t snap,
    main sample_boto3 "2024-01-01_00-00-00" ["us-east-1"; "eu-west-1"]
      ["storage"; "quiet"; "ghost"] 10 (λ _, [0; 1; 2]) = (t, inr snap) ∧
    ∀ region, region ∈ ["us-east-1"; "eu-west-1"] →
      ∃ rr t_tag l,
        resources_by_region snap !! region = Some rr ∧
        get_tagged_resources sample_boto3 region = (t_tag, inr l) ∧
        tagged_resources rr = ResourceARN <$> l ∧
        ∀ svc res,
          all_resources rr !! svc = Some res ↔
            svc ∈ ["storage"; "quiet"; "ghost"] ∧ res ≠ ∅ ∧
            ∃ t', discover_resources_for_service sample_boto3 svc region
                  = (t', inr (svc, region, res)).
Proof.
  apply (snapshot_entry_keeps_every_finding sample_boto3 "2024-01-01_00-00-00"
           ["us-east-1"; "eu-west-1"] ["storage"; "quiet"; "ghost"] 10
           (λ _, [0; 1; 2])).
  - reflexivity.
  - intros _. unfold completion_order. reflexivity.
Defined.

(** *** Traces *)

Section Traces.
Context {St : Type}.

(** A loop whose turns all end normally, each showing [ev x]. *)
Lemma for_each_trace {A} (ev : A → list event) (body : A → M St unit)
    (xs : list A) :
  (∀ x s, x ∈ xs → ∃ s', body x s = (ev x, s', inr tt)) →
  ∀ s, ∃ s', for_each xs body s = (concat (ev <$> xs), s', inr tt).
Proof.
  induction xs as [|x xs IH]; intros Hbody s; [by exists s |].
  destruct (Hbody x s) as (s1 & H1); [left |].
  destruct (IH (λ y s0 Hy, Hbody y s0 (list_elem_of_further _ _ _ Hy)) s1)
    as (s2 & H2).
  exists s2. cbn [for_each]. unfold bind. by rewrite H1, H2.
Qed.

End Traces.

Section RegionTraces.
Context (boto3 : Boto3).

Lemma merge_future_trace region service_name (s : main_locals) :
  ∃ s', merge_future (discover_resources_for_service boto3 service_name region) s
        = ((discover_resources_for_service boto3 service_name region).1,
           s', inr tt).
Proof.
  destruct (merge_future_run boto3 region service_name s) as (t & H).
  destruct (discover_scan boto3 region service_name) as (t0 & H0).
  rewrite H. eexists. do 2 f_equal.
  revert H. unfold merge_future, mbind, M_bind, bind, call.
  rewrite H0. cbn [fst snd].
  destruct (truthy (scan boto3 region service_name)); cbn;
    rewrite ?app_nil_r; by intros [= <-].
Qed.

Lemma merge_loop_trace region (svcs : list string) (s : main_locals) :
  ∃ s', for_each ((λ service, discover_resources_for_service boto3 service region)
                    <$> svcs) merge_future s
        = (concat ((λ svc, (discover_resources_for_service boto3 svc region).1)
                     <$> svcs), s', inr tt).
Proof.
  destruct (for_each_trace (St := main_locals) fst merge_future
              ((λ service, discover_resources_for_service boto3 service region)
                 <$> svcs)) with (s := s) as (s' & H).
  - intros fut s0 (svc & -> & _)%list_elem_of_fmap.
    apply merge_future_trace.
  - exists s'. etrans; [exact H |]. by rewrite <- list_fmap_compose.
Qed.

(** One region, with a pool of at least one worker: what it shows. *)
Lemma scan_region_trace services threads order region (s : main_locals) :
  (0 < threads)%Z →
  ∃ s', scan_region boto3 services threads order region s
        = (region_trace boto3 (as_completed order services) region, s', inr tt).
Proof.
  intros Hthreads.
  destruct (get_tagged_resources_total boto3 region) as (t1 & l & Htag).
  destruct (merge_loop_trace region (as_completed order services)
              {| all_results := all_results s; region_resources := ∅ |})
    as (s1 & Hloop).
  rewrite <- as_completed_fmap in Hloop.
  unfold scan_region, ThreadPoolExecutor, region_trace.
  rewrite (proj2 (Z.leb_gt _ _) Hthreads).
  unfold mbind, M_bind, bind, call, print, emit, modify, lift.
  rewrite Htag. cbn [fst snd]. rewrite Hloop. cbn.
  eexists. by rewrite !app_nil_r.
Qed.

(** One region, with a pool without workers. *)
Lemma scan_region_no_worker_trace services threads order region
    (s : main_locals) :
  (threads ≤ 0)%Z →
  ∃ s', scan_region boto3 services threads order region s
        = (Print (MsgRegion region)
             :: (get_tagged_resources boto3 region).1
             ++ [Print (MsgDiscovering region)],
           s', inl (OtherException "max_workers must be greater than 0")).
Proof.
  intros Hthreads.
  destruct (get_tagged_resources_total boto3 region) as (t1 & l & Htag).
  unfold scan_region, ThreadPoolExecutor.
  rewrite (proj2 (Z.leb_le _ _) Hthreads).
  unfold mbind, M_bind, bind, call, print, emit, modify, lift.
  rewrite Htag. cbn. by eexists.
Qed.

Lemma main_trace stamp regions services threads schedule :
  (0 < threads)%Z →
  (main boto3 stamp regions services threads schedule).1
  = concat ((λ ir, region_trace boto3 (as_completed (schedule ir.1) services) ir.2)
              <$> enumerate regions).
Proof.
  intros Hthreads. unfold main, exec.
  match goal with |- context [(for_each ?irs ?body ≫= _) ?s0] =>
    destruct (for_each_trace
                (λ ir, region_trace boto3 (as_completed (schedule ir.1) services) ir.2)
                body irs
                (λ ir s1 _,
                   match ir with
                   | (i, region) =>
                       scan_region_trace services threads (schedule i) region
                         s1 Hthreads
                   end) s0) as (s' & H) end.
  unfold mbind, M_bind, bind, get, ret. rewrite H. cbn.
  by rewrite app_nil_r.
Qed.

End RegionTraces.

Lemma filter_other_class (P Q : event → bool) (t : list event) :
  (∀ ev, P ev = true → Q ev = false) →
  Forall (λ ev, P ev = true) t → List.filter Q t = [].
Proof.
  intros HPQ. induction 1 as [|ev t Hev _ IH]; [done |].
  cbn [List.filter]. by rewrite (HPQ ev Hev).
Qed.

Lemma operation_events_scanner c service_name region op :
  Forall (λ ev, is_scanner_event ev = true)
    (operation_events c service_name region op).
Proof.
  unfold operation_events. destruct (is_skipped op); [constructor |].
  destruct (invoke c op) as [[]|response]; try destruct (truthy _);
    by repeat constructor.
Qed.

(** The scanner shows nothing but its own events. *)
Lemma discover_trace_scanner boto3 service_name region :
  Forall (λ ev, is_scanner_event ev = true)
    (discover_resources_for_service boto3 service_name region).1.
Proof.
  destruct (client boto3 service_name region) as [e|c] eqn:Hc.
  - rewrite (discover_client_error _ _ _ e Hc). by repeat constructor.
  - destruct (get_list_operations_total c) as (ops & Hops & _).
    rewrite (discover_client_ok _ _ _ c ops Hc Hops). cbn [fst].
    constructor; [done |]. apply Forall_concat, Forall_fmap, Forall_forall.
    intros op _. apply operation_events_scanner.
Qed.

(** The tag-index scanner shows its progress line, then its report or
    its error line. *)
Lemma tagged_trace_shape boto3 region :
  ∃ rest,
    (get_tagged_resources boto3 region).1
      = Print (MsgFetchingTagged region) :: rest ∧
    Forall (λ ev, is_tag_report ev = true) rest.
Proof.
  destruct (tagging_paginate boto3 region) as [e|pg] eqn:Hpg.
  { rewrite (get_tagged_resources_unavailable _ _ e Hpg).
    eexists. split; [done | by repeat constructor]. }
  destruct (page_error pg) as [e|] eqn:He.
  { rewrite (get_tagged_resources_page_error _ _ pg e Hpg He).
    eexists. split; [done | by repeat constructor]. }
  destruct (decide (Forall (λ r, is_Some (split ":"%char (ResourceARN r) !! 2%nat))
                      (page_records pg))) as [Hrs | Hrs].
  - pose proof (get_tagged_resources_body_ok boto3 region pg Hpg He Hrs) as Hb.
    cbv zeta in Hb. unfold get_tagged_resources, exec. rewrite Hb. cbn [fst].
    eexists. split; [done |]. constructor; [done |].
    apply Forall_fmap, Forall_forall. by intros kv _.
  - destruct (group_loop_raises (page_records pg)
                {| resources := page_records pg; by_service := [] |} Hrs)
      as (s' & Hloop).
    unfold get_tagged_resources, exec, get_tagged_resources_body,
      get_tagged_resources_try, try_except, initial_tag_locals.
    unfold mbind, M_bind, bind, lift, print, emit, get. simpl.
    rewrite Hpg, for_pages_run, He. simpl. rewrite Hloop. simpl.
    eexists. split; [done | by repeat constructor].
Qed.

(** X9: a pool without workers stops [main] at the first region: its
    tag-index scan is run, then the exception of the pool leaves [main]
    before any service is scanned, and there is no snapshot.  Without
    regions there is nothing to stop: the snapshot is empty. *)
Theorem main_without_workers
    (boto3 : Boto3) (stamp : string) (region : string)
    (rest services : list string) (threads : Z) (schedule : nat → list nat) :
  (threads ≤ 0)%Z →
  ∃ t,
    main boto3 stamp (region :: rest) services threads schedule
      = (t, inl (OtherException "max_workers must be greater than 0")) ∧
    t = Print (MsgRegion region)
          :: (get_tagged_resources boto3 region).1
          ++ [Print (MsgDiscovering region)] ∧
    List.filter is_scanner_event t = [] ∧
    main boto3 stamp [] services threads schedule
      = ([], inr {| metadata := {| timestamp := stamp;
                                   regions_scanned := [];
                                   services_scanned := services |};
                    resources_by_region := ∅ |}).
Proof.
  intros Hthreads. eexists. split_and!; [| reflexivity | | reflexivity].
  - unfold main, exec, enumerate. cbn [length seq zip zip_with for_each].
    unfold mbind, M_bind. unfold bind at 1 2.
    match goal with |- context [scan_region ?b ?sv ?th ?o ?r ?s0] =>
      destruct (scan_region_no_worker_trace b sv th o r s0 Hthreads)
        as (s' & ->) end.
    done.
  - destruct (tagged_trace_shape boto3 region) as (trest & -> & Hrest).
    cbn [List.filter is_scanner_event app].
    rewrite List.filter_app. cbn [List.filter is_scanner_event].
    rewrite (filter_other_class is_tag_report is_scanner_event);
      [done | | done].
    by intros [[]|].
Qed.

Lemma main_without_workers_witness :
  ∃ t,
    main sample_boto3 "2024-01-01_00-00-00" ("us-east-1" :: ["eu-west-1"])
      ["storage"; "quiet"] 0 (λ _, [0; 1])
      = (t, inl (OtherException "max_workers must be greater than 0")) ∧
    t = Print (MsgRegion "us-east-1")
          :: (get_tagged_resources sample_boto3 "us-east-1").1
          ++ [Print (MsgDiscovering "us-east-1")] ∧
    List.filter is_scanner_event t = [] ∧
    main sample_boto3 "2024-01-01_00-00-00" [] ["storage"; "quiet"] 0
      (λ _, [0; 1])
      = ([], inr {| metadata := {| timestamp := "2024-01-01_00-00-00";
                                   regions_scanned := [];
                                   services_scanned := ["storage"; "quiet"] |};
                    resources_by_region := ∅ |}).
Proof.
  apply (main_without_workers sample_boto3 "2024-01-01_00-00-00" "us-east-1"
           ["eu-west-1"] ["storage"; "quiet"] 0 (λ _, [0; 1])).
  reflexivity.
Defined.

Lemma phase_region_trace boto3 svcs region :
  List.filter is_phase_event (region_trace boto3 svcs region)
  = [Print (MsgRegion region); Print (MsgFetchingTagged region);
     Print (MsgDiscovering region)].
Proof.
  unfold region_trace.
  destruct (tagged_trace_shape boto3 region) as (trest & -> & Hrest).
  cbn [List.filter is_phase_event app]. do 2 f_equal.
  rewrite List.filter_app. cbn [List.filter is_phase_event].
  rewrite (filter_other_class is_tag_report is_phase_event trest);
    [| by intros [[]|] | done].
  cbn [app]. f_equal.
  apply (filter_other_class is_scanner_event is_phase_event);
    [by intros [[]|] |].
  apply Forall_concat, Forall_fmap, Forall_forall. intros svc _.
  apply discover_trace_scanner.
Qed.

(** X10: with a pool of at least one worker, the regions are handled
    one after the other in the order of the list, and for each region
    the tag-index scan starts before the discovery through the services:
    the lines that open these phases come out region by region. *)
Theorem regions_are_handled_in_order
    (boto3 : Boto3) (stamp : string) (regions services : list string)
    (threads : Z) (schedule : nat → list nat) :
  (0 < threads)%Z →
  ∃ t snap,
    main boto3 stamp regions services threads schedule = (t, inr snap) ∧
    List.filter is_phase_event t
    = concat ((λ region, [Print (MsgRegion region);
                          Print (MsgFetchingTagged region);
                          Print (MsgDiscovering region)]) <$> regions).
Proof.
  intros Hthreads.
  destruct (main_run boto3 stamp regions services threads schedule Hthreads)
    as (t & Hmain).
  pose proof (main_trace boto3 stamp regions services threads schedule Hthreads)
    as Ht.
  rewrite Hmain in Ht. cbn [fst] in Ht. subst t.
  eexists _, _. split; [exact Hmain |].
  rewrite <- (enumerate_snd regions) at 2.
  generalize (enumerate regions) as irs.
  induction irs as [|[i region] irs IH]; [done |].
  rewrite !fmap_cons. cbn [concat fst snd].
  rewrite List.filter_app, phase_region_trace, IH. done.
Qed.

Lemma regions_are_handled_in_order_witness :
  ∃ t snap,
    main sample_boto3 "2024-01-01_00-00-00" ["us-east-1"; "eu-west-1"]
      ["storage"; "quiet"] 2 (λ _, [1; 0]) = (t, inr snap) ∧
    List.filter is_phase_event t
    = [Print (MsgRegion "us-east-1"); Print (MsgFetchingTagged "us-east-1");
       Print (MsgDiscovering "us-east-1");
       Print (MsgRegion "eu-west-1"); Print (MsgFetchingTagged "eu-west-1");
       Print (MsgDiscovering "eu-west-1")].
Proof.
  apply (regions_are_handled_in_order sample_boto3 "2024-01-01_00-00-00"
           ["us-east-1"; "eu-west-1"] ["storage"; "quiet"] 2 (λ _, [1; 0])).
  reflexivity.
Defined.

(** ** Arguments and catalogs *)

Lemma string_append_assoc (a b c : string) : (a +:+ b) +:+ c = a +:+ (b +:+ c).
Proof.
  induction a as [|x a IH]; [done |]. by rewrite !append_cons, IH.
Qed.

Lemma rev_app_append (a b : string) :
  String.rev_app a b = String.rev_app a "" +:+ b.
Proof.
  revert b. induction a as [|x a IH]; intros b; [done |].
  cbn [String.rev_app]. rewrite (IH (String x b)), (IH (String x "")).
  by rewrite string_append_assoc.
Qed.

Lemma contains_char_nil c : contains "" (String c "") = false.
Proof. reflexivity. Qed.

Lemma contains_char_cons b s c :
  contains (String b s) (String c "") = Ascii.eqb c b || contains s (String c "").
Proof. cbn [contains startswith]. by destruct (Ascii.eqb c b). Qed.

Lemma contains_char_rev_app a b c :
  contains (String.rev_app a b) (String c "")
  = contains a (String c "") || contains b (String c "").
Proof.
  revert b. induction a as [|x a IH]; intros b; [done |].
  cbn [String.rev_app]. rewrite IH, !contains_char_cons.
  by destruct (Ascii.eqb c x), (contains a (String c "")).
Qed.

Lemma split_go_nonempty sep cur s : split_go sep cur s ≠ [].
Proof.
  revert cur. induction s as [|c s IH]; intros cur; cbn [split_go]; [done |].
  destruct (Ascii.eqb c sep); [done | apply IH].
Qed.

Lemma join_split_go sep cur s :
  join (String sep "") (split_go sep cur s) = String.rev_app cur s.
Proof.
  revert cur. induction s as [|c s IH]; intros cur; cbn [split_go]; [done |].
  destruct (Ascii.eqb c sep) eqn:Hc.
  - apply Ascii.eqb_eq in Hc as ->.
    cbn [join]. pose proof (split_go_nonempty sep "" s) as Hne.
    destruct (split_go sep "" s) as [|f fs] eqn:Hs; [done |].
    rewrite <- Hs, IH. cbn [String.rev_app].
    by rewrite (rev_app_append cur (String sep s)).
  - by rewrite IH.
Qed.

Lemma split_go_fields sep cur s :
  contains cur (String sep "") = false →
  Forall (λ f, contains f (String sep "") = false) (split_go sep cur s).
Proof.
  revert cur. induction s as [|c s IH]; intros cur Hcur; cbn [split_go].
  - constructor; [| constructor]. unfold String.rev.
    by rewrite contains_char_rev_app, Hcur.
  - destruct (Ascii.eqb c sep) eqn:Hc.
    + constructor; [| by apply IH]. unfold String.rev.
      by rewrite contains_char_rev_app, Hcur.
    + apply IH. rewrite contains_char_cons, Hcur, orb_false_r.
      apply Ascii.eqb_neq. apply Ascii.eqb_neq in Hc. congruence.
Qed.

(** X11: a list of regions given on the command line is taken as it is,
    cut at the commas: there is at least one region (an empty argument
    gives the one region with the empty name), no region holds a comma,
    joining the regions with commas gives the argument back, and
    nothing is looked up or shown. *)
Theorem region_argument_is_cut_at_commas (aws : Aws) (args : Args.t) :
  String.eqb (lower (Args.regions args)) "all" = false →
  ∃ regions,
    resolve_regions aws args = ([], inr regions) ∧
    regions ≠ [] ∧
    join "," regions = Args.regions args ∧
    Forall (λ region, contains region "," = false) regions.
Proof.
  intros Hall. exists (split ","%char (Args.regions args)).
  unfold resolve_regions. rewrite Hall. split_and!.
  - done.
  - apply split_go_nonempty.
  - apply (join_split_go ","%char "" (Args.regions args)).
  - by apply split_go_fields.
Qed.

Lemma region_argument_is_cut_at_commas_witness :
  ∃ regions,
    resolve_regions sample_aws sample_args = ([], inr regions) ∧
    regions ≠ [] ∧
    join "," regions = "us-east-1,,eu-west-1" ∧
    Forall (λ region, contains region "," = false) regions.
Proof.
  apply (region_argument_is_cut_at_commas sample_aws sample_args).
  reflexivity.
Defined.

(** The regions of that argument: the empty name between the two commas
    is one of them. *)
Example sample_regions :
  resolve_regions sample_aws sample_args
  = ([], inr ["us-east-1"; ""; "eu-west-1"]).
Proof. reflexivity. Qed.

Lemma getitem_inl {V} (d : gmap string V) key e :
  getitem d key = inl e → d !! key = None ∧ e = KeyError key.
Proof. unfold getitem. destruct (d !! key); [done | by intros [= <-]]. Qed.

Lemma getitem_inr {V} (d : gmap string V) key v :
  getitem d key = inr v ↔ d !! key = Some v.
Proof.
  unfold getitem. destruct (d !! key); [| done].
  split; by intros [= <-].
Qed.

Lemma comprehension_inr {A B} (f : A → exn + B) (xs : list A) (ys : list B) :
  comprehension f xs = inr ys ↔ Forall2 (λ x y, f x = inr y) xs ys.
Proof.
  revert ys. induction xs as [|x xs IH]; intros ys; cbn [comprehension].
  - split; [intros [= <-]; constructor | by intros ->%Forall2_nil_inv_l].
  - destruct (f x) as [e|y] eqn:Hx.
    + split; [done |]. intros (y & ys' & Hy & _ & _)%Forall2_cons_inv_l.
      congruence.
    + destruct (comprehension f xs) as [e|ys0].
      * split; [done |].
        intros (y' & ys' & _ & H & _)%Forall2_cons_inv_l.
        by apply IH in H.
      * split.
        -- intros [= <-]. constructor; [done | by apply IH].
        -- intros (y' & ys' & Hy & H & ->)%Forall2_cons_inv_l.
           apply IH in H. congruence.
Qed.

Lemma comprehension_inl {A B} (f : A → exn + B) (xs : list A) e :
  comprehension f xs = inl e → Exists (λ x, f x = inl e) xs.
Proof.
  induction xs as [|x xs IH]; cbn [comprehension]; [done |].
  destruct (f x) as [e'|y] eqn:Hx.
  - intros [= <-]. by left.
  - destruct (comprehension f xs) as [e'|ys]; [| done].
    intros [= <-]. right. by apply IH.
Qed.

(** X12: [get_available_regions] always returns a list.  It is the
    list of the [RegionName] of the records of the response, in order
    and without a word, when the call succeeds, the response has
    [Regions] and every record has [RegionName]; in every other case
    the names already read are dropped and the five default regions are
    returned, with one diagnostic. *)
Theorem available_regions_or_defaults (aws : Aws) :
  ∃ t regions,
    get_available_regions aws = (t, inr regions) ∧
    ((∃ response records,
        describe_regions aws = inr response ∧
        response !! "Regions" = Some records ∧
        Forall2 (λ record name, record !! "RegionName" = Some name)
          records regions ∧
        t = []) ∨
     (regions = default_regions ∧
      ∃ msg, t = [Console (LnRegionsError msg)] ∧
        ((∃ e, describe_regions aws = inl e ∧ msg = str e) ∨
         (∃ response,
            describe_regions aws = inr response ∧
            ((response !! "Regions" = None ∧ msg = "'Regions'") ∨
             (∃ records,
                response !! "Regions" = Some records ∧
                Exists (λ record, record !! "RegionName" = None) records ∧
                msg = "'RegionName'")))))).
Proof.
  unfold get_available_regions, try_exception, attempt, mbind, P_bind, mret,
    P_ret, say.
  destruct (describe_regions aws) as [e|response] eqn:Hd.
  { eexists _, _. split; [reflexivity |]. right. split; [done |].
    eexists. split; [reflexivity |]. left. by eauto. }
  destruct (getitem response "Regions") as [e|records] eqn:Hr.
  { apply getitem_inl in Hr as [Hr ->].
    eexists _, _. split; [reflexivity |]. right. split; [done |].
    eexists. split; [reflexivity |]. right. exists response.
    split; [done |]. by left. }
  apply getitem_inr in Hr.
  destruct (comprehension (λ region, getitem region "RegionName") records)
    as [e|names] eqn:Hc.
  - apply comprehension_inl in Hc.
    eexists _, _. split; [reflexivity |]. right. split; [done |].
    assert (Exists (λ record : gmap string string, record !! "RegionName" = None)
              records ∧ e = KeyError "RegionName") as [Hex ->].
    { clear Hr. induction Hc as [r rs Hx | r rs _ IH].
      - apply getitem_inl in Hx as [Hx ->]. split; [by left | done].
      - destruct IH as [IH ->]. split; [by right | done]. }
    eexists. split; [reflexivity |]. right. exists response.
    split; [done |]. right. by eauto.
  - apply comprehension_inr in Hc.
    eexists _, _. split; [reflexivity |]. left. exists response, records.
    split_and!; try done.
    eapply Forall2_impl; [exact Hc |]. intros record name. apply getitem_inr.
Qed.

(** The fallback on a record without a name: the name read before it is
    not kept. *)
Example regions_fallback :
  get_available_regions
    {| scanners := sample_boto3;
       get_caller_identity := get_caller_identity sample_aws;
       describe_regions :=
         inr {[ "Regions" := [ {[ "RegionName" := "eu-west-1" ]};
                               {[ "Endpoint" := "ec2.us-east-1.amazonaws.com" ]} ] ]};
       get_available_services := [];
       open_w := λ _, None |}
  = ([Console (LnRegionsError "'RegionName'")], inr default_regions).
Proof. vm_compute. reflexivity. Qed.

Lemma filter_length_all {A} (f : A → bool) (l : list A) :
  length (List.filter f l) = length l ↔ Forall (λ x, f x = true) l.
Proof.
  induction l as [|x l IH]; cbn [List.filter length]; [by split |].
  pose proof (List.filter_length_le f l) as Hle.
  destruct (f x) eqn:Hx; cbn [length].
  - split.
    + intros [= H]. constructor; [done | by apply IH].
    + intros [_ H]%Forall_cons. f_equal. by apply IH.
  - split; [lia |]. intros [? _]%Forall_cons. congruence.
Qed.

Lemma elem_of_sorted (xs : list string) x : x ∈ sorted xs ↔ x ∈ xs.
Proof. unfold sorted. by rewrite merge_sort_Permutation. Qed.

(** X13: the services to scan are always services of the catalog.  For
    "all", in any letter case, they are the catalog in sorted order.
    Otherwise they are the argument, cut at the commas, with the
    services that the catalog does not have taken out: the others stay
    in the order of the argument and as often as they are given; the
    warning is shown exactly when the argument names a service the
    catalog does not have. *)
Theorem services_argument_is_checked_against_catalog
    (aws : Aws) (args : Args.t) :
  ∃ t services,
    resolve_services aws args = (t, inr services) ∧
    (∀ s, s ∈ services → s ∈ get_available_services aws) ∧
    (String.eqb (lower (Args.services args)) "all" = true →
       t = [] ∧ Sorted String.le services ∧
       services ≡ₚ get_available_services aws) ∧
    (String.eqb (lower (Args.services args)) "all" = false →
       let user_services := split ","%char (Args.services args) in
       services
       = List.filter (λ s, bool_decide (s ∈ get_available_services aws))
           user_services ∧
       sublist services user_services ∧
       (∀ s, s ∈ services ↔ s ∈ user_services ∧ s ∈ get_available_services aws) ∧
       (Console LnServicesWarning ∈ t ↔
          ∃ s, s ∈ user_services ∧ s ∉ get_available_services aws) ∧
       Forall (λ o, o = Console LnServicesWarning) t).
Proof.
  unfold resolve_services, get_all_aws_services.
  destruct (String.eqb (lower (Args.services args)) "all") eqn:Hall.
  - eexists _, _. split; [reflexivity |]. split_and!.
    + intros s. by rewrite elem_of_sorted.
    + intros _. split_and!; [done | apply (Sorted_merge_sort _) |
                              apply merge_sort_Permutation].
    + done.
  - set (catalog := get_available_services aws).
    set (user := split ","%char (Args.services args)).
    set (keep := λ s : string, bool_decide (s ∈ sorted catalog)).
    assert (∀ s, keep s = true ↔ s ∈ catalog) as Hkeep.
    { intros s. unfold keep.
      rewrite bool_decide_eq_true. apply elem_of_sorted. }
    assert (List.filter keep user
            = List.filter (λ s, bool_decide (s ∈ catalog)) user) as Hfilter.
    { apply List.filter_ext. intros s. unfold keep.
      apply bool_decide_ext, elem_of_sorted. }
    assert (∀ s, s ∈ List.filter keep user ↔ s ∈ user ∧ s ∈ catalog) as Hin.
    { intros s. by rewrite list_elem_of_In, filter_In, <- list_elem_of_In, Hkeep. }
    destruct (length (List.filter keep user) =? length user)%nat eqn:Hlen.
    + apply Nat.eqb_eq, filter_length_all in Hlen.
      eexists _, _. split; [unfold mbind, P_bind; cbn; reflexivity |].
      split_and!; [intros s; by intros [_ ?]%Hin | done |].
      intros _. cbv zeta. split_and!.
      * exact Hfilter.
      * apply filter_sublist.
      * apply Hin.
      * split; [by intros ?%elem_of_nil |].
        intros (s & Hs & Hout). exfalso. apply Hout, Hkeep.
        by eapply (proj1 (Forall_forall _ _) Hlen).
      * constructor.
    + apply Nat.eqb_neq in Hlen.
      eexists _, _. split; [unfold mbind, P_bind; cbn; reflexivity |].
      split_and!; [intros s; by intros [_ ?]%Hin | done |].
      intros _. cbv zeta. split_and!.
      * exact Hfilter.
      * apply filter_sublist.
      * apply Hin.
      * split; [intros _ | intros _; by left].
        destruct (decide (Forall (λ s, keep s = true) user)) as [Hall' | Hex].
        { by apply filter_length_all in Hall'. }
        apply not_Forall_Exists in Hex; [| apply _].
        apply Exists_exists in Hex as (s & Hs & Hk).
        exists s. split; [done |]. by rewrite <- Hkeep.
      * by repeat constructor.
Qed.

(** The services of the sample argument: "bogus" is left out with a
    warning. *)
Example sample_services :
  resolve_services sample_aws sample_args
  = ([Console LnServicesWarning], inr ["storage"; "quiet"]).
Proof. vm_compute. reflexivity. Qed.

(** ** The program *)

Lemma pbind_ok {A B} (m : P A) (f : A → P B) t a :
  m = (t, inr a) → (m ≫= f) = (t ++ (f a).1, (f a).2).
Proof. intros ->. unfold mbind, P_bind. by destruct (f a). Qed.

Lemma pbind_stop {A B} (m : P A) (f : A → P B) t st :
  m = (t, inl st) → (m ≫= f) = (t, inl st).
Proof. by intros ->. Qed.

Lemma writes_app t1 t2 : writes (t1 ++ t2) = writes t1 ++ writes t2.
Proof. apply omap_app. Qed.

Lemma writes_console t : Forall (λ o, is_console o = true) t → writes t = [].
Proof.
  induction 1 as [|o t Ho _ IH]; [done |]. by destruct o.
Qed.

Lemma writes_engine (t : list event) : writes (Engine <$> t) = [].
Proof. induction t as [|ev t IH]; [done | by rewrite fmap_cons]. Qed.

Lemma get_available_regions_total aws :
  ∃ t regions,
    get_available_regions aws = (t, inr regions) ∧
    Forall (λ o, is_console o = true) t.
Proof.
  unfold get_available_regions, try_exception, attempt, mbind, P_bind, mret,
    P_ret, say.
  destruct (describe_regions aws) as [e|response];
    [eexists _, _; split; [reflexivity | by repeat constructor] |].
  destruct (getitem response "Regions") as [e|records];
    [eexists _, _; split; [reflexivity | by repeat constructor] |].
  destruct (comprehension _ records) as [e|names];
    eexists _, _; (split; [reflexivity | by repeat constructor]).
Qed.

Lemma resolve_regions_total aws args :
  ∃ t regions,
    resolve_regions aws args = (t, inr regions) ∧
    Forall (λ o, is_console o = true) t.
Proof.
  unfold resolve_regions.
  destruct (String.eqb (lower (Args.regions args)) "all").
  - apply get_available_regions_total.
  - eexists _, _. split; [reflexivity | constructor].
Qed.

Lemma resolve_services_total aws args :
  ∃ t services,
    resolve_services aws args = (t, inr services) ∧
    Forall (λ o, is_console o = true) t.
Proof.
  unfold resolve_services.
  destruct (String.eqb (lower (Args.services args)) "all").
  - eexists _, _. split; [reflexivity | constructor].
  - match goal with |- context [negb ?b] => destruct b end;
      eexists _, _; (split; [reflexivity | by repeat constructor]).
Qed.

Lemma comprehension_all {A B} (f : A → exn + B) (g : A → B) (xs : list A) :
  (∀ x, x ∈ xs → f x = inr (g x)) → comprehension f xs = inr (g <$> xs).
Proof.
  induction xs as [|x xs IH]; intros H; [done |].
  cbn [comprehension]. rewrite H by left.
  rewrite IH by (intros; apply H; by right). done.
Qed.

(** The sum of lines 225-228 on the snapshot that [main] returns: no
    region of the list is missing from it. *)
Lemma total_tagged_resources_main boto3 stamp regions services threads schedule
    t snap :
  (0 < threads)%Z →
  main boto3 stamp regions services threads schedule = (t, inr snap) →
  total_tagged_resources snap regions
  = inr (sum_list ((λ region, length (tagged boto3 region)) <$> regions)).
Proof.
  intros Hthreads Hmain.
  destruct (main_run boto3 stamp regions services threads schedule Hthreads)
    as (t' & Hrun).
  rewrite Hrun in Hmain. injection Hmain as _ <-.
  unfold total_tagged_resources. cbn [resources_by_region].
  rewrite (comprehension_all _ (λ region, length (tagged boto3 region))); [done |].
  intros region Hregion.
  assert (is_Some (fill (λ i region, region_result boto3 services (schedule i) region)
                     ∅ (enumerate regions) !! region)) as [rr Hrr].
  { apply fill_lookup_is_Some. left. by rewrite enumerate_snd. }
  rewrite (proj2 (getitem_inr _ _ _) Hrr).
  apply fill_lookup_Some in Hrr as [(i & _ & ->) | Hrr];
    [| by rewrite lookup_empty in Hrr].
  cbn [region_result tagged_resources]. by rewrite length_fmap.
Qed.

(** X14: unless the identity of the caller is obtained and has an
    [Arn], the program stops before anything is scanned or written: with
    exit code 1 when the failure is a [ClientError] or a
    [NoCredentialsError], and otherwise with the exception itself, which
    nothing catches (a [KeyError] when the identity has no [Arn]). *)
Theorem program_stops_at_failed_preflight
    (aws : Aws) (args : Args.t) (stamp : string) (schedule : nat → list nat) :
  (∀ identity, get_caller_identity aws = inr identity →
               identity !! "Arn" = None) →
  ∃ t,
    main_program aws args stamp schedule
      = (t, inl match get_caller_identity aws with
                | inl (StsClientError _) | inl StsNoCredentialsError => SysExit 1
                | inl (StsOtherError msg) => Raise (OtherException msg)
                | inr _ => Raise (KeyError "Arn")
                end) ∧
    Forall (λ o, is_console o = true) t ∧
    writes t = [].
Proof.
  intros Harn. unfold main_program, validate_aws_credentials.
  destruct (get_caller_identity aws) as [[msg| |msg]|identity] eqn:Hid.
  - eexists. split; [reflexivity |]. split; [by repeat constructor | done].
  - eexists. split; [reflexivity |]. split; [by repeat constructor | done].
  - eexists. split; [reflexivity |]. split; [by repeat constructor | done].
  - unfold getitem. rewrite (Harn identity eq_refl).
    eexists. split; [reflexivity |]. split; [by repeat constructor | done].
Qed.

Lemma program_stops_at_failed_preflight_witness :
  ∃ t,
    main_program anonymous_aws sample_args "2024-01-01_00-00-00" (λ _, [0; 1])
      = (t, inl (SysExit 1)) ∧
    Forall (λ o, is_console o = true) t ∧
    writes t = [].
Proof.
  apply (program_stops_at_failed_preflight anonymous_aws sample_args
           "2024-01-01_00-00-00" (λ _, [0; 1])).
  intros identity H. discriminate H.
Defined.

Lemma validate_aws_credentials_ok aws identity arn :
  get_caller_identity aws = inr identity → identity !! "Arn" = Some arn →
  validate_aws_credentials aws
  = ([Console LnValidating; Console (LnCredentialsValid arn)], inr true).
Proof.
  intros Hid Harn. unfold validate_aws_credentials, getitem.
  by rewrite Hid, Harn.
Qed.

Lemma engine_ok {A} (r : Result A) t a :
  r = (t, inr a) → engine r = (Engine <$> t, inr a).
Proof. by intros ->. Qed.

(** Membership in a list written with [::] and [++], looking to the
    right. *)
Ltac find_elem :=
  repeat first [ by left | apply elem_of_cons; right | apply elem_of_app; right ].

(** X15: with accepted credentials and a pool of at least one worker,
    the program scans the regions and services it resolved, and its
    summary always comes out: the total it gives is the sum, over the
    list of regions (a region given twice counts twice), of the numbers
    of records of the tag-index scans.  Then the file decides: when it
    can be opened the program ends normally having written the snapshot
    of [main] once, under the name of [--output] or the default name;
    when it cannot, the exception leaves the program and nothing is
    written. *)
Theorem program_outcome
    (aws : Aws) (args : Args.t) (stamp : string) (schedule : nat → list nat)
    (identity : gmap string value) (arn : value) :
  get_caller_identity aws = inr identity →
  identity !! "Arn" = Some arn →
  (0 < Args.threads args)%Z →
  ∃ t r t_regions regions t_services services t_main snap,
    main_program aws args stamp schedule = (t, r) ∧
    resolve_regions aws args = (t_regions, inr regions) ∧
    resolve_services aws args = (t_services, inr services) ∧
    main (scanners aws) stamp regions services (Args.threads args) schedule
      = (t_main, inr snap) ∧
    Console (LnSummary (length regions) (join ", " regions)
               (sum_list ((λ region, length (tagged (scanners aws) region))
                            <$> regions))) ∈ t ∧
    match open_w aws (output_file args stamp) with
    | None => r = inr tt ∧ writes t = [(output_file args stamp, snap)]
    | Some e => r = inl (Raise e) ∧ writes t = []
    end.
Proof.
  intros Hid Harn Hthreads.
  destruct (resolve_regions_total aws args) as (t_regions & regions & Hr & Hcr).
  destruct (resolve_services_total aws args) as (t_services & services & Hs & Hcs).
  destruct (main_run (scanners aws) stamp regions services (Args.threads args)
              schedule Hthreads) as (t_main & Hmain).
  pose proof (total_tagged_resources_main _ _ _ _ _ _ _ _ Hthreads Hmain)
    as Htotal.
  match type of Hmain with _ = (_, inr ?sn) => set (snap := sn) in * end.
  assert (
    main_program aws args stamp schedule
    = ([Console LnValidating; Console (LnCredentialsValid arn)] ++ [] ++
       t_regions ++ t_services ++
       [Console (LnBanner stamp (length regions) (join ", " regions)
                   (length services) (Args.threads args))] ++
       (Engine <$> t_main) ++ [] ++
       [Console (LnSummary (length regions) (join ", " regions)
                   (sum_list ((λ region, length (tagged (scanners aws) region))
                                <$> regions)))] ++
       (attempt (match open_w aws (output_file args stamp) with
                 | Some e => inl e
                 | None => inr ()
                 end) ≫= λ _,
          ([WriteJson (output_file args stamp) snap], inr ()) ≫= λ _,
          say (LnSaved (output_file args stamp))).1,
       (attempt (match open_w aws (output_file args stamp) with
                 | Some e => inl e
                 | None => inr ()
                 end) ≫= λ _,
          ([WriteJson (output_file args stamp) snap], inr ()) ≫= λ _,
          say (LnSaved (output_file args stamp))).2)) as Hprog.
  { unfold main_program. cbv zeta.
    rewrite (pbind_ok _ _ _ _ (validate_aws_credentials_ok _ _ _ Hid Harn)).
    cbn [negb].
    rewrite (pbind_ok (mret ()) _ [] () eq_refl).
    rewrite (pbind_ok _ _ _ _ Hr), (pbind_ok _ _ _ _ Hs).
    rewrite (pbind_ok (say _) _ _ () eq_refl).
    rewrite (pbind_ok _ _ _ _ (engine_ok _ _ _ Hmain)).
    rewrite Htotal.
    rewrite (pbind_ok (attempt (inr _)) _ [] _ eq_refl).
    rewrite (pbind_ok (say _) _ _ () eq_refl).
    reflexivity. }
  eexists _, _, t_regions, regions, t_services, services, t_main, snap.
  split; [exact Hprog |]. split; [exact Hr |]. split; [exact Hs |].
  split; [exact Hmain |]. split.
  - find_elem.
  - rewrite !writes_app, (writes_console t_regions),
      (writes_console t_services), writes_engine by done.
    by destruct (open_w aws (output_file args stamp)).
Qed.

Lemma program_outcome_witness :
  ∃ t r t_regions regions t_services services t_main snap,
    main_program sample_aws sample_args "2024-01-01_00-00-00" (λ _, [1; 0])
      = (t, r) ∧
    resolve_regions sample_aws sample_args = (t_regions, inr regions) ∧
    resolve_services sample_aws sample_args = (t_services, inr services) ∧
    main (scanners sample_aws) "2024-01-01_00-00-00" regions services
      (Args.threads sample_args) (λ _, [1; 0])
      = (t_main, inr snap) ∧
    Console (LnSummary (length regions) (join ", " regions)
               (sum_list ((λ region, length (tagged (scanners sample_aws) region))
                            <$> regions))) ∈ t ∧
    match open_w sample_aws (output_file sample_args "2024-01-01_00-00-00") with
    | None =>
        r = inr tt ∧
        writes t = [(output_file sample_args "2024-01-01_00-00-00", snap)]
    | Some e => r = inl (Raise e) ∧ writes t = []
    end.
Proof.
  apply (program_outcome sample_aws sample_args "2024-01-01_00-00-00"
           (λ _, [1; 0])
           {[ "Arn" := VStr "arn:aws:iam::123456789012:user/ops" ]}
           (VStr "arn:aws:iam::123456789012:user/ops")).
  - reflexivity.
  - vm_compute. reflexivity.
  - reflexivity.
Defined.

(** The sample run: three regions of two tagged records each, one file
    under the default name. *)
Example sample_program_run :
  let run := main_program sample_aws sample_args "2024-01-01_00-00-00"
               (λ _, [1; 0]) in
  run.2 = inr tt ∧
  List.filter is_console run.1
  = [Console LnValidating;
     Console (LnCredentialsValid (VStr "arn:aws:iam::123456789012:user/ops"));
     Console LnServicesWarning;
     Console (LnBanner "2024-01-01_00-00-00" 3 "us-east-1, , eu-west-1" 2 10);
     Console (LnSummary 3 "us-east-1, , eu-west-1" 6);
     Console (LnSaved "aws_resources_2024-01-01_00-00-00.json")] ∧
  (writes run.1).*1 = ["aws_resources_2024-01-01_00-00-00.json"].
Proof. vm_compute. done. Qed.

(** The same run when the file cannot be opened: everything is scanned,
    the summary is shown, and the exception ends the program. *)
Example unwritable_program_run :
  let run := main_program
               {| scanners := scanners sample_aws;
                  get_caller_identity := get_caller_identity sample_aws;
                  describe_regions := describe_regions sample_aws;
                  get_available_services := get_available_services sample_aws;
                  open_w := λ _, Some (OtherException "Permission denied") |}
               sample_args "2024-01-01_00-00-00" (λ _, [1; 0]) in
  run.2 = inl (Raise (OtherException "Permission denied")) ∧
  Console (LnSummary 3 "us-east-1, , eu-west-1" 6) ∈ run.1 ∧
  writes run.1 = [].
Proof.
  vm_compute. split; [done |]. split; [| done]. find_elem.
Qed.
